(** * Provably-fair number engine: a shallow embedding of
      [src/provably-fair.js] and of the [getHashBySeed] variant embedded in
      [src/app.js], with the properties of its rejection sampler, unique
      selector and seed commitment.

    Conventions of the embedding.
    - JavaScript numbers that the engine treats as integers ([count], the
      bounds of [rng], [nonce], cursors) are [Z]; the model covers the
      integers a double represents exactly.  [BigInt] values are [Z] as well.
    - A [Uint8Array] is a [list byte]; a JavaScript string is a [string]
      whose characters are the code units 0..255.
    - A JavaScript [Set] of numbers is the list of its members in insertion
      order, which is the order [Array.from] and iteration observe.
    - [await] is sequential composition: no other code runs between the
      steps of one call, so an [async] function is the function of its body.
    - The [while] loop of the selector may run for ever; it is modelled with
      fuel and a three-way [outcome]. *)

From Stdlib Require Import ZArith NArith List String Ascii Bool Lia DecimalString.
From Stdlib.Strings Require Import Byte.
From Stdlib Require Import Sorted.
From Stdlib Require Finite.
Import ListNotations.
Local Open Scope Z_scope.

(** ** JavaScript primitives used by the source *)

Module JS.

(** [ToUint32] and [ToInt32] of ECMAScript, on integers. *)
Definition ToUint32 (z : Z) : Z := z mod 2 ^ 32.

Definition ToInt32 (z : Z) : Z :=
  let u := z mod 2 ^ 32 in
  if 2 ^ 31 <=? u then u - 2 ^ 32 else u.

(** [a << n]: both operands to 32 bits, the count masked to 5 bits, the
    result wrapped to a signed 32-bit integer. *)
Definition shl (a n : Z) : Z :=
  ToInt32 (Z.shiftl (ToInt32 a) (Z.land (ToUint32 n) 31)).

(** [a | b] on signed 32-bit operands (two's complement, as [Z.lor]). *)
Definition bor (a b : Z) : Z := Z.lor (ToInt32 a) (ToInt32 b).

(** [a >>> 0]. *)
Definition ushr0 (a : Z) : Z := ToUint32 a.

(** [String(n)] / template-literal interpolation of an integer. *)
Definition Number_toString (n : Z) : string :=
  NilZero.string_of_int (Z.to_int n).

(** Element read [buffer[i]] of a [Uint8Array], as it is seen by a bitwise
    operator: an index outside the array reads [undefined], which the
    operator converts to 0. *)
Definition byteAt (buffer : list byte) (i : nat) : Z :=
  match nth_error buffer i with
  | Some b => Z.of_N (Byte.to_N b)
  | None => 0
  end.

Definition byte_of_N (n : N) : byte :=
  match Byte.of_N n with Some b => b | None => x00 end.

(** [new TextEncoder().encode(s)]: UTF-8 of the code units 0..255. *)
Definition utf8_of_ascii (c : ascii) : list byte :=
  let n := N_of_ascii c in
  if (n <? 128)%N then [byte_of_N n]
  else [byte_of_N (192 + n / 64); byte_of_N (128 + n mod 64)].

Fixpoint TextEncoder_encode (s : string) : list byte :=
  match s with
  | EmptyString => []
  | String c rest => utf8_of_ascii c ++ TextEncoder_encode rest
  end.

(** The digit characters of [Number.prototype.toString(16)]. *)
Definition hexDigit (n : N) : ascii :=
  (if n <? 10 then ascii_of_N (48 + n) else ascii_of_N (87 + n))%N.

(** [b.toString(16)] for a byte [b]. *)
Definition byte_toString16 (b : byte) : string :=
  let n := Byte.to_N b in
  (if n <? 16 then String (hexDigit n) EmptyString
   else String (hexDigit (n / 16)) (String (hexDigit (n mod 16)) EmptyString))%N.

(** [s.padStart(2, '0')]. *)
Definition padStart2 (s : string) : string :=
  match s with
  | EmptyString => "00"
  | String c EmptyString => String "0" (String c EmptyString)
  | _ => s
  end.

(** [parts.join('')]. *)
Definition join (parts : list string) : string :=
  fold_right String.append EmptyString parts.

(** Value of a hexadecimal digit, for [parseInt(_, 16)]. *)
Definition hexValue (c : ascii) : option N :=
  let n := N_of_ascii c in
  (if (48 <=? n) && (n <=? 57) then Some (n - 48)
   else if (97 <=? n) && (n <=? 102) then Some (n - 87)
   else if (65 <=? n) && (n <=? 70) then Some (n - 55)
   else None)%N.

(** [parseInt(c1 + c2, 16)] stored into a [Uint8Array] cell, for a string
    of two characters: the longest prefix of hexadecimal digits is read,
    and [NaN] is stored as 0.  (Signs, blanks and the [0x] prefix, which
    the hex strings of this program never contain, are not modelled.) *)
Definition parseHexPair (c1 c2 : ascii) : byte :=
  match hexValue c1 with
  | None => x00
  | Some a =>
      match hexValue c2 with
      | None => byte_of_N a
      | Some b => byte_of_N (16 * a + b)
      end
  end.

(** A [Set] of numbers: its members, oldest first. *)
Definition NumSet := list Z.

Definition Set_has (s : NumSet) (x : Z) : bool := existsb (Z.eqb x) s.
Definition Set_add (s : NumSet) (x : Z) : NumSet :=
  if Set_has s x then s else s ++ [x].
Definition Set_size (s : NumSet) : Z := Z.of_nat (List.length s).
Definition Array_from (s : NumSet) : list Z := s.

(** The white space and line terminators that [String.prototype.trim]
    strips, among the code units 0..255: TAB, LF, VT, FF, CR, SP, NBSP. *)
Definition isWhiteSpace (c : ascii) : bool :=
  let n := N_of_ascii c in
  ((9 <=? n) && (n <=? 13) || (n =? 32) || (n =? 160))%N.

Fixpoint trimStart (s : string) : string :=
  match s with
  | EmptyString => EmptyString
  | String c rest => if isWhiteSpace c then trimStart rest else s
  end.

Fixpoint trimEnd (s : string) : string :=
  match s with
  | EmptyString => EmptyString
  | String c rest =>
      match trimEnd rest with
      | EmptyString => if isWhiteSpace c then EmptyString else String c EmptyString
      | kept => String c kept
      end
  end.

(** [s.trim()]. *)
Definition trim (s : string) : string := trimEnd (trimStart s).

(** The result of [parseInt]: an integer, or [NaN] ([None]). *)
Definition Int : Type := option Z.

(** [isNaN(num) || num < 0]. *)
Definition isNaN_or_negative (num : Int) : bool :=
  match num with
  | None => true
  | Some z => z <? 0
  end.

End JS.

(** ** The hash primitive of the platform

    [crypto.subtle.sign('HMAC', ...)] with hash SHA-256 and
    [CryptoJS.HmacSHA256] are library code; both compute HMAC (RFC 2104)
    over SHA-256 (FIPS 180-4).  The function is written out here so that
    the engine can be evaluated on concrete seeds. *)

Module SHA256.

Definition mask32 : Z := 0xffffffff.
Definition add32 (a b : Z) : Z := Z.land (a + b) mask32.
Definition rotr (n x : Z) : Z :=
  Z.lor (Z.shiftr x n) (Z.land (Z.shiftl x (32 - n)) mask32).
Definition not32 (x : Z) : Z := Z.lxor x mask32.

Definition Ch (x y z : Z) : Z := Z.lxor (Z.land x y) (Z.land (not32 x) z).
Definition Maj (x y z : Z) : Z :=
  Z.lxor (Z.lxor (Z.land x y) (Z.land x z)) (Z.land y z).
Definition bigSigma0 (x : Z) : Z :=
  Z.lxor (Z.lxor (rotr 2 x) (rotr 13 x)) (rotr 22 x).
Definition bigSigma1 (x : Z) : Z :=
  Z.lxor (Z.lxor (rotr 6 x) (rotr 11 x)) (rotr 25 x).
Definition smallSigma0 (x : Z) : Z :=
  Z.lxor (Z.lxor (rotr 7 x) (rotr 18 x)) (Z.shiftr x 3).
Definition smallSigma1 (x : Z) : Z :=
  Z.lxor (Z.lxor (rotr 17 x) (rotr 19 x)) (Z.shiftr x 10).

(** The sixty-four round constants of section 4.2.2, in decimal. *)
Definition K : list Z :=
  [
    1116352408; 1899447441; 3049323471; 3921009573; 961987163; 1508970993;
    2453635748; 2870763221; 3624381080; 310598401; 607225278; 1426881987;
    1925078388; 2162078206; 2614888103; 3248222580; 3835390401; 4022224774;
    264347078; 604807628; 770255983; 1249150122; 1555081692; 1996064986;
    2554220882; 2821834349; 2952996808; 3210313671; 3336571891; 3584528711;
    113926993; 338241895; 666307205; 773529912; 1294757372; 1396182291;
    1695183700; 1986661051; 2177026350; 2456956037; 2730485921; 2820302411;
    3259730800; 3345764771; 3516065817; 3600352804; 4094571909; 275423344;
    430227734; 506948616; 659060556; 883997877; 958139571; 1322822218;
    1537002063; 1747873779; 1955562222; 2024104815; 2227730452; 2361852424;
    2428436474; 2756734187; 3204031479; 3329325298
  ].

(** The eight working variables / the intermediate hash value. *)
Record regs := Regs { ra : Z; rb : Z; rc : Z; rd : Z;
                      re : Z; rf : Z; rg : Z; rh : Z }.

(** The initial hash value of section 5.3.3, in decimal. *)
Definition H0 : regs :=
  Regs 1779033703 3144134277 1013904242 2773480762
       1359893119 2600822924 528734635 1541459225.

Definition zbyte (b : byte) : Z := Z.of_N (Byte.to_N b).
Definition byteZ (z : Z) : byte := JS.byte_of_N (Z.to_N (Z.land z 255)).

(** Big-endian bytes of a 32-bit word, and of a 64-bit length. *)
Definition wordBytes (w : Z) : list byte :=
  [byteZ (Z.shiftr w 24); byteZ (Z.shiftr w 16); byteZ (Z.shiftr w 8); byteZ w].
Definition lengthBytes (n : Z) : list byte :=
  wordBytes (Z.shiftr n 32) ++ wordBytes n.

(** Padding of section 5.1.1: a 1 bit, zeros up to 56 mod 64, the length
    in bits. *)
Definition pad (msg : list byte) : list byte :=
  let len := Z.of_nat (List.length msg) in
  let zeros := Z.to_nat ((55 - len) mod 64) in
  msg ++ [x80] ++ repeat x00 zeros ++ lengthBytes (8 * len).

(** The 16 words of a 64-byte block. *)
Fixpoint blockWords (n : nat) (bs : list byte) : list Z :=
  match n, bs with
  | S n', b0 :: b1 :: b2 :: b3 :: rest =>
      (Z.shiftl (zbyte b0) 24 + Z.shiftl (zbyte b1) 16
       + Z.shiftl (zbyte b2) 8 + zbyte b3) :: blockWords n' rest
  | _, _ => []
  end.

(** Message schedule: [recent] holds W(t-1), W(t-2), ..., newest first. *)
Fixpoint schedule (n : nat) (recent : list Z) : list Z :=
  match n with
  | O => recent
  | S n' =>
      let w := add32 (add32 (smallSigma1 (nth 1 recent 0)) (nth 6 recent 0))
                     (add32 (smallSigma0 (nth 14 recent 0)) (nth 15 recent 0)) in
      schedule n' (w :: recent)
  end.

Definition round (s : regs) (kw : Z * Z) : regs :=
  let t1 := add32 (add32 (add32 (rh s) (bigSigma1 (re s)))
                         (add32 (Ch (re s) (rf s) (rg s)) (fst kw))) (snd kw) in
  let t2 := add32 (bigSigma0 (ra s)) (Maj (ra s) (rb s) (rc s)) in
  Regs (add32 t1 t2) (ra s) (rb s) (rc s) (add32 (rd s) t1) (re s) (rf s) (rg s).

Definition compress (h : regs) (block : list byte) : regs :=
  let w := rev (schedule 48 (rev (blockWords 16 block))) in
  let s := fold_left round (combine K w) h in
  Regs (add32 (ra h) (ra s)) (add32 (rb h) (rb s))
       (add32 (rc h) (rc s)) (add32 (rd h) (rd s))
       (add32 (re h) (re s)) (add32 (rf h) (rf s))
       (add32 (rg h) (rg s)) (add32 (rh h) (rh s)).

Fixpoint blocks (n : nat) (h : regs) (bs : list byte) : regs :=
  match n with
  | O => h
  | S n' => blocks n' (compress h (firstn 64 bs)) (skipn 64 bs)
  end.

Definition regsBytes (h : regs) : list byte :=
  wordBytes (ra h) ++ wordBytes (rb h) ++ wordBytes (rc h) ++ wordBytes (rd h)
  ++ wordBytes (re h) ++ wordBytes (rf h) ++ wordBytes (rg h) ++ wordBytes (rh h).

Definition sha256 (msg : list byte) : list byte :=
  let p := pad msg in
  regsBytes (blocks (List.length p / 64) H0 p).

End SHA256.

Module HMAC.

Definition xorByte (c : Z) (b : byte) : byte :=
  SHA256.byteZ (Z.lxor (SHA256.zbyte b) c).

(** RFC 2104 with block size 64: a key longer than a block is hashed
    first, then padded with zeros. *)
Definition blockKey (key : list byte) : list byte :=
  let k := if (64 <? List.length key)%nat then SHA256.sha256 key else key in
  k ++ repeat x00 (64 - List.length k).

Definition hmac_sha256 (key data : list byte) : list byte :=
  let k := blockKey key in
  SHA256.sha256 (map (xorByte 0x5c) k
                 ++ SHA256.sha256 (map (xorByte 0x36) k ++ data)).

End HMAC.

(** ** The program *)

(** The errors the engine throws.  All are plain [Error] objects in the
    source and differ by their message only. *)
Inductive Error : Type :=
| CountNotPositive                      (* 'count must be > 0' *)
| UpperBelowLower                       (* 'upper must be >= lower' *)
| CannotGenerate (count totalRange : Z) (* `Cannot generate ${count} unique numbers from range of ${totalRange}` *)
| FailedToGenerate.                     (* 'Failed to generate any numbers' *)

(** What a call does: it returns, it throws, or it is still in its loop
    when the fuel is spent. *)
Inductive outcome (A : Type) : Type :=
| Returned (a : A)
| Thrown (e : Error)
| OutOfFuel.
Arguments Returned {A} a.
Arguments Thrown {A} e.
Arguments OutOfFuel {A}.

Definition bind {A B : Type} (m : outcome A) (k : A -> outcome B) : outcome B :=
  match m with
  | Returned a => k a
  | Thrown e => Thrown e
  | OutOfFuel => OutOfFuel
  end.

Notation "x <- m ;; k" := (bind m (fun x => k))
  (at level 61, m at next level, right associativity).

(** One invocation of the keyed hash: its key and its message. *)
Definition HmacCall : Type := (string * string)%type.

(** The variables the [while] loop of [getUniqueNumbersFromRange] updates,
    and [hmacCalls], the log of the [createHmac] invocations made so far
    (a ghost field: the source keeps no such log). *)
Record LoopState : Type := mkLoopState {
  digest : list byte;
  results : JS.NumSet;
  cursor : nat;
  digestIndex : nat;
  hmacCalls : list HmacCall
}.

Definition MAX_UINT32 : Z := 0xffffffff.

(** [limit = MAX_UINT32 - (MAX_UINT32 % range)], on [BigInt]s: [%] is the
    remainder of the truncated division. *)
Definition sampleLimit (range : Z) : Z := MAX_UINT32 - Z.rem MAX_UINT32 range.

(** [readUInt32BE(buffer, offset)]. *)
Definition readUInt32BE (buffer : list byte) (offset : nat) : Z :=
  JS.ushr0
    (JS.bor
       (JS.bor
          (JS.bor (JS.shl (JS.byteAt buffer offset) 24)
                  (JS.shl (JS.byteAt buffer (offset + 1)) 16))
          (JS.shl (JS.byteAt buffer (offset + 2)) 8))
       (JS.byteAt buffer (offset + 3))).

(** [hexToArrayBuffer(hex)]: one byte per two characters. *)
Fixpoint hexToArrayBuffer (hex : string) : list byte :=
  match hex with
  | String c1 (String c2 rest) => JS.parseHexPair c1 c2 :: hexToArrayBuffer rest
  | _ => []
  end.

(** [bytes.map(b => b.toString(16).padStart(2, '0')).join('')]. *)
Definition hexString (bytes : list byte) : string :=
  JS.join (map (fun b => JS.padStart2 (JS.byte_toString16 b)) bytes).

(** The characters the regular-expression atom [.] does not match: of the
    code units 0..255, the line feed and the carriage return (the other two
    line terminators of ECMAScript are U+2028 and U+2029). *)
Definition isLineTerminator (c : ascii) : bool :=
  (N_of_ascii c =? 10)%N || (N_of_ascii c =? 13)%N.

(** [seed.match(/.{1,2}/g)]: the successive leftmost matches of one or two
    characters other than line terminators, taken greedily; [None] is the
    [null] of no match at all. *)
Fixpoint matchAll (s : string) : list string :=
  match s with
  | EmptyString => []
  | String c1 rest =>
      if isLineTerminator c1 then matchAll rest
      else
        match rest with
        | EmptyString => [String c1 EmptyString]
        | String c2 rest2 =>
            if isLineTerminator c2 then String c1 EmptyString :: matchAll rest2
            else String c1 (String c2 EmptyString) :: matchAll rest2
        end
  end.

Definition String_match (s : string) : option (list string) :=
  match matchAll s with
  | [] => None
  | ms => Some ms
  end.

(** [seed.match(/.{1,2}/g)?.reverse().join('') ?? seed]. *)
Definition saltOf (seed : string) : string :=
  match String_match seed with
  | Some chunks => JS.join (rev chunks)
  | None => seed
  end.

(** The statement of the salt in words: the seed cut into consecutive
    chunks of two characters (the last one of a single character when the
    length is odd), the chunks written in reverse order. *)
Fixpoint chunksOfTwo (s : string) : list string :=
  match s with
  | EmptyString => []
  | String c1 EmptyString => [String c1 EmptyString]
  | String c1 (String c2 rest) => String c1 (String c2 EmptyString) :: chunksOfTwo rest
  end.

Definition reversedChunks (seed : string) : string :=
  JS.join (rev (chunksOfTwo seed)).

(** The distinct values of a list in the order of their first occurrence,
    in words: the head comes first, and it is struck out of what follows. *)
Fixpoint firstOccurrences (xs : list Z) : list Z :=
  match xs with
  | [] => []
  | x :: rest => x :: filter (fun y => negb (Z.eqb x y)) (firstOccurrences rest)
  end.

(** The objects the game functions return. *)
Module Wheel.
Record result : Type := mk { winSectorNumber : Z; hash : string }.
End Wheel.

Module Mines.
Record result : Type := mk { minedCells : list Z; hash : string }.
End Mines.

Module Cases.
Record result : Type := mk { result_ : Z; hash : string }.
End Cases.

Module Dice.
Record result : Type := mk { winNumber : Z; hash : string }.
End Dice.

(** The alerts of [validateInputs]. *)
Inductive Alert : Type :=
| FillAllFields          (* 'Please fill in all fields' *)
| ValidPositiveNumbers.  (* 'Please enter valid positive numbers' *)

(** What a submit handler leaves on the page: nothing but the alert of a
    failed validation, the result, the message of a caught error, the
    message of the handler's own guard, or the loading state of a
    computation that has not ended. *)
Inductive Shown (R : Type) : Type :=
| Rejected (alert : option Alert)
| ShownResult (r : R)
| ShownError (e : Error)
| ShownGuard            (* 'Mines count must be less than grid size' *)
| Loading.
Arguments Rejected {R} alert.
Arguments ShownResult {R} r.
Arguments ShownError {R} e.
Arguments ShownGuard {R}.
Arguments Loading {R}.

Section Engine.

(** The runtime the engine finds: the keyed hash (key first, then data),
    whether the Web Crypto API is present and signs, and whether the
    global [CryptoJS] is defined. *)
Variable hmacSha256 : list byte -> list byte -> list byte.
Variable subtleAvailable : bool.
Variable cryptoJSDefined : bool.

(** HMAC-SHA256 yields 32 bytes, whatever the key and the data. *)
Hypothesis digest_length :
  forall key data, List.length (hmacSha256 key data) = 32%nat.

(** [CryptoJS.HmacSHA256(message, key)]: the message comes first. *)
Definition CryptoJS_HmacSHA256 (message key : string) : list byte :=
  hmacSha256 (JS.TextEncoder_encode key) (JS.TextEncoder_encode message).

(** [wordArray.toString()]: CryptoJS prints a digest with its hexadecimal
    encoder, two lowercase digits per byte. *)
Definition CryptoJS_toString (wordArray : list byte) : string :=
  hexString wordArray.

(** [createHmac(key, message)]. *)
Definition createHmac (key message : string) : list byte :=
  if subtleAvailable
  then hmacSha256 (JS.TextEncoder_encode key) (JS.TextEncoder_encode message)
  else hexToArrayBuffer (CryptoJS_toString (CryptoJS_HmacSHA256 message key)).

(** *** [getUniqueNumbersFromRange] *)

Section Loop.

(** The constants of the call that the loop reads. *)
Variables (serverSeed baseMsg : string) (range limit lower targetCount : Z).

(** The body of the [while] loop. *)
Definition loopBody (st : LoopState) : LoopState :=
  let st1 :=
    if (List.length (digest st) <? cursor st + 4)%nat
    then
      let digestIndex' := (digestIndex st + 1)%nat in
      let message := (baseMsg ++ ":" ++ JS.Number_toString (Z.of_nat digestIndex'))%string in
      let newDigest := createHmac serverSeed message in
      mkLoopState (digest st ++ newDigest) (results st) (cursor st)
                  digestIndex' (hmacCalls st ++ [(serverSeed, message)])
    else st in
  let num := readUInt32BE (digest st1) (cursor st1) in
  let cursor' := (cursor st1 + 4)%nat in
  let results' :=
    if num <? limit
    then
      let result := Z.rem num range + lower in
      if negb (JS.Set_has (results st1) result)
      then results st1 ++ [result]
      else results st1
    else results st1 in
  mkLoopState (digest st1) results' cursor' (digestIndex st1) (hmacCalls st1).

(** [while (results.size < targetCount) { ... }]. *)
Fixpoint whileLoop (fuel : nat) (st : LoopState) : outcome LoopState :=
  if JS.Set_size (results st) <? targetCount
  then
    match fuel with
    | O => OutOfFuel
    | S fuel' => whileLoop fuel' (loopBody st)
    end
  else Returned st.

End Loop.

(** [for (let i = lower; i <= upper; i += 1) if (!excluded.has(i)) finalResults.push(i)];
    [steps] bounds the number of iterations. *)
Fixpoint inversionLoop (steps : nat) (excluded : JS.NumSet) (i upper : Z)
         (finalResults : list Z) : list Z :=
  match steps with
  | O => finalResults
  | S steps' =>
      if i <=? upper
      then inversionLoop steps' excluded (i + 1) upper
             (if negb (JS.Set_has excluded i) then finalResults ++ [i] else finalResults)
      else finalResults
  end.

(** The state in which the loop is entered, and the state it is left in. *)
Definition initialState (serverSeed baseMsg : string) : LoopState :=
  mkLoopState (createHmac serverSeed baseMsg) [] 0 0 [(serverSeed, baseMsg)].

(** The function up to the end of its [while] loop, with the constants it
    has computed: [(shouldUseInversion, final loop state)]. *)
Definition selectorRun (fuel : nat) (count lower upper : Z)
           (serverSeed : string) (nonce : Z) (clientSeed : string)
  : outcome (bool * LoopState) :=
  if count <=? 0 then Thrown CountNotPositive else
  if upper <? lower then Thrown UpperBelowLower else
  let totalRange := upper - lower + 1 in
  if totalRange <? count then Thrown (CannotGenerate count totalRange) else
  (* count > totalRange / 2, the division being exact *)
  let shouldUseInversion := totalRange <? 2 * count in
  let targetCount := if shouldUseInversion then totalRange - count else count in
  let range := totalRange in
  let limit := sampleLimit range in
  let baseMsg := (clientSeed ++ ":" ++ JS.Number_toString nonce)%string in
  st <- whileLoop serverSeed baseMsg range limit lower targetCount fuel
          (initialState serverSeed baseMsg) ;;
  Returned (shouldUseInversion, st).

Definition getUniqueNumbersFromRange (fuel : nat) (count lower upper : Z)
           (serverSeed : string) (nonce : Z) (clientSeed : string)
  : outcome (list Z) :=
  r <- selectorRun fuel count lower upper serverSeed nonce clientSeed ;;
  let '(shouldUseInversion, st) := r in
  if shouldUseInversion
  then
    let excluded := results st in
    Returned (inversionLoop (Z.to_nat (upper - lower + 1)) excluded lower upper [])
  else Returned (JS.Array_from (results st)).

(** *** [getNumberFromRange] *)
Definition getNumberFromRange (fuel : nat) (lower upper : Z)
           (serverSeed : string) (nonce : Z) (clientSeed : string) : outcome Z :=
  numbers <- getUniqueNumbersFromRange fuel 1 lower upper serverSeed nonce clientSeed ;;
  match numbers with
  | [] => Thrown FailedToGenerate
  | first :: _ => Returned first
  end.

(** *** [getHashBySeed], as in [src/provably-fair.js] *)
Definition getHashBySeed (seed : string) : string :=
  let salt := saltOf seed in
  if cryptoJSDefined
  then CryptoJS_toString (CryptoJS_HmacSHA256 "" (seed ++ salt))
  else hexString (createHmac (seed ++ salt) "").

(** *** [getHashBySeed], as embedded in [src/app.js] *)
Definition getHashBySeed_embedded (seed : string) : string :=
  let salt := saltOf seed in
  if cryptoJSDefined
  then CryptoJS_toString (CryptoJS_HmacSHA256 (seed ++ salt) seed)
  else hexString (createHmac seed (seed ++ salt)).

(** *** The digest stream, in words

    Block [i] of the stream is the keyed hash, under the server seed, of
    [clientSeed:nonce] for [i = 0] and of [clientSeed:nonce:i] for
    [i >= 1]; the stream is the concatenation of the blocks, and draw [j]
    is the big-endian value of its bytes [4j .. 4j+3]. *)
Section Stream.

Variables (serverSeed clientSeed : string) (nonce : Z).

Definition blockMessage (i : nat) : string :=
  match i with
  | O => clientSeed ++ ":" ++ JS.Number_toString nonce
  | S _ => clientSeed ++ ":" ++ JS.Number_toString nonce
           ++ ":" ++ JS.Number_toString (Z.of_nat i)
  end%string.

Definition streamBlock (i : nat) : list byte :=
  hmacSha256 (JS.TextEncoder_encode serverSeed)
             (JS.TextEncoder_encode (blockMessage i)).

Definition streamPrefix (blocks : nat) : list byte :=
  List.concat (map streamBlock (seq 0 blocks)).

Definition streamByte (k : nat) : Z :=
  JS.byteAt (streamBlock (k / 32)) (k mod 32).

Definition streamWord (j : nat) : Z :=
  2 ^ 24 * streamByte (4 * j) + 2 ^ 16 * streamByte (4 * j + 1)
  + 2 ^ 8 * streamByte (4 * j + 2) + streamByte (4 * j + 3).

Definition draws (n : nat) : list Z := map streamWord (seq 0 n).

(** The values accepted among some draws, in draw order: a draw below
    [limit] is accepted and gives [draw mod range + lower]. *)
Definition acceptedValues (range lower : Z) (ws : list Z) : list Z :=
  map (fun v => v mod range + lower)
      (filter (fun v => v <? sampleLimit range) ws).

(** The working set after [n] draws. *)
Definition workingSet (range lower : Z) (n : nat) : list Z :=
  firstOccurrences (acceptedValues range lower (draws n)).

End Stream.

(** The integers of [[lower, upper]] in increasing order. *)
Definition interval (lower upper : Z) : list Z :=
  map (fun k => lower + Z.of_nat k) (seq 0 (Z.to_nat (upper - lower + 1))).

(** The loop state after [n] iterations of the body, the guard left
    aside: every state the loop passes through is one of these. *)
Definition stateAfter (serverSeed clientSeed : string) (nonce range limit lower : Z)
           (n : nat) : LoopState :=
  Nat.iter n
    (loopBody serverSeed (blockMessage clientSeed nonce 0) range limit lower)
    (initialState serverSeed (blockMessage clientSeed nonce 0)).

(** How the loop stands on the stream after [n] iterations: [4 * n] bytes
    consumed, the blocks [0 .. (n - 1) / 8] requested, in this order and
    under the server seed, and buffered end to end. *)
Definition StreamInv (serverSeed clientSeed : string) (nonce : Z)
           (n : nat) (st : LoopState) : Prop :=
  cursor st = (4 * n)%nat
  /\ digestIndex st = ((n - 1) / 8)%nat
  /\ digest st = streamPrefix serverSeed clientSeed nonce (S (digestIndex st))
  /\ hmacCalls st
     = map (fun i => (serverSeed, blockMessage clientSeed nonce i))
           (seq 0 (S (digestIndex st))).

(** Whether a string holds a character that [.] does not match. *)
Fixpoint hasLineTerminator (s : string) : bool :=
  match s with
  | EmptyString => false
  | String c rest => isLineTerminator c || hasLineTerminator rest
  end.

(** The digits of a lowercase hexadecimal string. *)
Definition isLowerHexDigit (c : ascii) : bool :=
  let n := N_of_ascii c in
  ((48 <=? n) && (n <=? 57) || (97 <=? n) && (n <=? 102))%N.

Fixpoint allLowerHex (s : string) : bool :=
  match s with
  | EmptyString => true
  | String c rest => isLowerHexDigit c && allLowerHex rest
  end.

(** A seed of two characters, the second a line feed. *)
Definition seedWithLineFeed : string := String "a" (String "010" EmptyString).

(** *** The game functions of [src/provably-fair.js]

    [calculateDiceResult] of that file divides by 100 and rounds through
    [toFixed] and [parseFloat]; it is left out, floating point being
    outside this embedding. *)

(** [calculateWheelResult(sessionId, serverSeed, sectorsCount)]. *)
Definition calculateWheelResult (fuel : nat) (sessionId serverSeed : string)
           (sectorsCount : Z) : outcome Wheel.result :=
  winSectorNumber <- getNumberFromRange fuel 1 sectorsCount serverSeed 0 sessionId ;;
  let hash := getHashBySeed serverSeed in
  Returned (Wheel.mk winSectorNumber hash).

(** [calculateMinesResult(clientSeed, serverSeed, nonce, gridSize, minesCount)]. *)
Definition calculateMinesResult (fuel : nat) (clientSeed serverSeed : string)
           (nonce gridSize minesCount : Z) : outcome Mines.result :=
  minedCells <- getUniqueNumbersFromRange fuel minesCount 1 gridSize
                                          serverSeed nonce clientSeed ;;
  let hash := getHashBySeed serverSeed in
  Returned (Mines.mk minedCells hash).

(** [calculateCasesResult(clientSeed, serverSeed, nonce, totalRange = 2000)]:
    an argument left out ([None]) takes the default. *)
Definition calculateCasesResult (fuel : nat) (clientSeed serverSeed : string)
           (nonce : Z) (totalRange : option Z) : outcome Cases.result :=
  let totalRange := match totalRange with Some t => t | None => 2000 end in
  result <- getNumberFromRange fuel 0 totalRange serverSeed nonce clientSeed ;;
  let hash := getHashBySeed serverSeed in
  Returned (Cases.mk result hash).

(** *** The game function embedded in [src/app.js] that differs

    [calculateDiceResult] of the code editor draws an integer of [1, 100]
    and commits with the embedded [getHashBySeed]. *)
Definition calculateDiceResult_embedded (fuel : nat) (clientSeed serverSeed : string)
           (nonce : Z) : outcome Dice.result :=
  winNumber <- getNumberFromRange fuel 1 100 serverSeed nonce clientSeed ;;
  let hash := getHashBySeed_embedded serverSeed in
  Returned (Dice.mk winNumber hash).

(** *** The form handlers of [src/app.js]

    The fields of the form are the arguments, the numbers as [parseInt]
    has read them; what the handler shows is its result. *)

(** [!str || str.trim() === ''] *)
Definition isBlank (str : string) : bool :=
  match str with
  | EmptyString => true
  | _ => String.eqb (JS.trim str) EmptyString
  end.

(** [validateInputs(strings, numbers)]: the value returned and the alert
    raised, if any. *)
Definition validateInputs (strings : list string) (numbers : list JS.Int)
  : bool * option Alert :=
  if existsb isBlank strings then (false, Some FillAllFields)
  else if existsb JS.isNaN_or_negative numbers then (false, Some ValidPositiveNumbers)
  else (true, None).

(** [try { show(await compute) } catch (error) { displayError(error.message) }]. *)
Definition showOutcome {R : Type} (computed : outcome R) : Shown R :=
  match computed with
  | Returned r => ShownResult r
  | Thrown e => ShownError e
  | OutOfFuel => Loading
  end.

(** [handleWheelSubmit]. *)
Definition handleWheelSubmit (fuel : nat) (sessionId serverSeed : string)
           (sectorsCount : JS.Int) : Shown Wheel.result :=
  match validateInputs [sessionId; serverSeed] [sectorsCount], sectorsCount with
  | (false, alert), _ => Rejected alert
  | (true, _), Some sectors =>
      showOutcome (calculateWheelResult fuel sessionId serverSeed sectors)
  | (true, _), None => Loading (* not reached: NaN fails the validation *)
  end.

(** [handleMinesSubmit]. *)
Definition handleMinesSubmit (fuel : nat) (clientSeed serverSeed : string)
           (nonce gridSize minesCount : JS.Int) : Shown Mines.result :=
  match validateInputs [clientSeed; serverSeed] [nonce; gridSize; minesCount],
        nonce, gridSize, minesCount with
  | (false, alert), _, _, _ => Rejected alert
  | (true, _), Some nonce', Some grid, Some mines =>
      if grid <=? mines then ShownGuard
      else showOutcome (calculateMinesResult fuel clientSeed serverSeed
                                             nonce' grid mines)
  | (true, _), _, _, _ => Loading (* not reached: NaN fails the validation *)
  end.

(** [handleCasesSubmit]. *)
Definition handleCasesSubmit (fuel : nat) (clientSeed serverSeed : string)
           (nonce totalRange : JS.Int) : Shown Cases.result :=
  match validateInputs [clientSeed; serverSeed] [nonce; totalRange],
        nonce, totalRange with
  | (false, alert), _, _ => Rejected alert
  | (true, _), Some nonce', Some total =>
      showOutcome (calculateCasesResult fuel clientSeed serverSeed nonce'
                                        (Some total))
  | (true, _), _, _ => Loading (* not reached: NaN fails the validation *)
  end.

(** The number of characters of a string that [.] matches. *)
Fixpoint matchableLength (s : string) : nat :=
  match s with
  | EmptyString => O
  | String c rest =>
      if isLineTerminator c then matchableLength rest
      else S (matchableLength rest)
  end.

(** The digits of a hexadecimal string are all lowercase and come in
    pairs. *)
Fixpoint evenLength (s : string) : bool :=
  match s with
  | EmptyString => true
  | String _ EmptyString => false
  | String _ (String _ rest) => evenLength rest
  end.

(** The loop on a shifted range: the same state but for the set, whose
    values are shifted. *)
Definition shifted (d : Z) (st st' : LoopState) : Prop :=
  digest st' = digest st /\ cursor st' = cursor st
  /\ digestIndex st' = digestIndex st /\ hmacCalls st' = hmacCalls st
  /\ results st' = map (Z.add d) (results st).

(** Whether [trim] leaves nothing of a string. *)
Fixpoint allWhiteSpace (s : string) : bool :=
  match s with
  | EmptyString => true
  | String c rest => JS.isWhiteSpace c && allWhiteSpace rest
  end.


(** ** Properties *)

(** *** 32-bit arithmetic of [readUInt32BE] *)

Lemma ToUint32_lor (x y : Z) :
  JS.ToUint32 (Z.lor x y) = Z.lor (JS.ToUint32 x) (JS.ToUint32 y).
Proof.
  unfold JS.ToUint32.
  rewrite <- !(Z.land_ones _ 32) by lia.
  apply Z.land_lor_distr_l.
Qed.

Lemma ToUint32_ToInt32 (x : Z) : JS.ToUint32 (JS.ToInt32 x) = JS.ToUint32 x.
Proof.
  unfold JS.ToUint32, JS.ToInt32.
  destruct (2 ^ 31 <=? x mod 2 ^ 32).
  - rewrite Zminus_mod, Z_mod_same_full, Z.sub_0_r, !Z.mod_mod by lia.
    reflexivity.
  - apply Z.mod_mod. lia.
Qed.

Lemma ToInt32_small (x : Z) : 0 <= x < 2 ^ 31 -> JS.ToInt32 x = x.
Proof.
  intros H. unfold JS.ToInt32.
  rewrite Z.mod_small by lia.
  destruct (2 ^ 31 <=? x) eqn:E; [apply Z.leb_le in E; lia | reflexivity].
Qed.

Lemma ToUint32_small (x : Z) : 0 <= x < 2 ^ 32 -> JS.ToUint32 x = x.
Proof. intros H. apply Z.mod_small. exact H. Qed.

(** Below a shifted value there is room for [n] more bits. *)
Lemma lor_shiftl_low (x c n : Z) :
  0 <= n -> 0 <= c < 2 ^ n -> Z.lor (Z.shiftl x n) c = x * 2 ^ n + c.
Proof.
  intros Hn Hc.
  assert (Hland : Z.land (Z.shiftl x n) c = 0).
  { apply Z.bits_inj'. intros m Hm.
    rewrite Z.land_spec, Z.bits_0.
    destruct (Z.lt_ge_cases m n) as [Hlt | Hge].
    - rewrite Z.shiftl_spec_low by assumption. reflexivity.
    - rewrite <- (Z.mod_small c (2 ^ n)) by assumption.
      rewrite Z.mod_pow2_bits_high by lia.
      apply andb_false_r. }
  rewrite <- Z.lxor_lor by assumption.
  rewrite <- Z.add_nocarry_lxor by assumption.
  rewrite Z.shiftl_mul_pow2 by assumption.
  reflexivity.
Qed.

(** The shifts and ors of [readUInt32BE] on four bytes. *)
Lemma be32_bits (a b c d : Z) :
  0 <= a < 256 -> 0 <= b < 256 -> 0 <= c < 256 -> 0 <= d < 256 ->
  JS.ushr0 (JS.bor (JS.bor (JS.bor (JS.shl a 24) (JS.shl b 16)) (JS.shl c 8)) d)
  = 2 ^ 24 * a + 2 ^ 16 * b + 2 ^ 8 * c + d.
Proof.
  intros Ha Hb Hc Hd.
  unfold JS.ushr0, JS.bor, JS.shl.
  rewrite !ToUint32_lor, !ToUint32_ToInt32, !ToUint32_lor, !ToUint32_ToInt32.
  rewrite !ToUint32_lor, !ToUint32_ToInt32.
  rewrite (ToInt32_small a), (ToInt32_small b), (ToInt32_small c) by lia.
  change (Z.land (JS.ToUint32 24) 31) with 24.
  change (Z.land (JS.ToUint32 16) 31) with 16.
  change (Z.land (JS.ToUint32 8) 31) with 8.
  rewrite !Z.shiftl_mul_pow2 by lia.
  rewrite !ToUint32_small by lia.
  replace (a * 2 ^ 24) with (Z.shiftl (a * 2 ^ 8) 16)
    by (rewrite Z.shiftl_mul_pow2 by lia; lia).
  replace (b * 2 ^ 16) with (Z.shiftl b 16)
    by (rewrite Z.shiftl_mul_pow2 by lia; lia).
  rewrite <- Z.shiftl_lor.
  replace (a * 2 ^ 8) with (Z.shiftl a 8)
    by (rewrite Z.shiftl_mul_pow2 by lia; lia).
  rewrite (lor_shiftl_low a b 8) by lia.
  rewrite (lor_shiftl_low (a * 2 ^ 8 + b) (c * 2 ^ 8) 16) by lia.
  replace ((a * 2 ^ 8 + b) * 2 ^ 16 + c * 2 ^ 8)
    with (Z.shiftl (a * 2 ^ 16 + b * 2 ^ 8 + c) 8)
    by (rewrite Z.shiftl_mul_pow2 by lia; lia).
  rewrite lor_shiftl_low by lia.
  lia.
Qed.

Lemma byteAt_range (buffer : list byte) (i : nat) :
  0 <= JS.byteAt buffer i < 256.
Proof.
  unfold JS.byteAt.
  destruct (nth_error buffer i) as [b |]; [| lia].
  pose proof (Byte.to_N_bounded b). lia.
Qed.

(** [readUInt32BE] reads the big-endian value of four consecutive bytes. *)
Lemma readUInt32BE_eq (buffer : list byte) (offset : nat) :
  readUInt32BE buffer offset
  = 2 ^ 24 * JS.byteAt buffer offset + 2 ^ 16 * JS.byteAt buffer (offset + 1)
    + 2 ^ 8 * JS.byteAt buffer (offset + 2) + JS.byteAt buffer (offset + 3).
Proof. unfold readUInt32BE. apply be32_bits; apply byteAt_range. Qed.

Lemma readUInt32BE_range (buffer : list byte) (offset : nat) :
  0 <= readUInt32BE buffer offset < 2 ^ 32.
Proof.
  rewrite readUInt32BE_eq.
  pose proof (byteAt_range buffer offset).
  pose proof (byteAt_range buffer (offset + 1)).
  pose proof (byteAt_range buffer (offset + 2)).
  pose proof (byteAt_range buffer (offset + 3)).
  lia.
Qed.

(** *** Hexadecimal round trip, and the two branches of [createHmac] *)

Lemma hexPair_shape (b : byte) :
  String.length (JS.padStart2 (JS.byte_toString16 b)) = 2%nat
  /\ hexToArrayBuffer (JS.padStart2 (JS.byte_toString16 b)) = [b]
  /\ allLowerHex (JS.padStart2 (JS.byte_toString16 b)) = true.
Proof. destruct b; vm_compute; repeat split. Qed.

Lemma string_of_length_two (s : string) :
  String.length s = 2%nat -> exists c1 c2, s = String c1 (String c2 EmptyString).
Proof.
  destruct s as [| c1 [| c2 [| c3 s]]]; cbn; intros H; try discriminate H.
  exists c1, c2. reflexivity.
Qed.

Lemma hexToArrayBuffer_hexString (bytes : list byte) :
  hexToArrayBuffer (hexString bytes) = bytes.
Proof.
  unfold hexString.
  induction bytes as [| b bytes IH]; [reflexivity |].
  destruct (hexPair_shape b) as (Hlen & Hparse & _).
  destruct (string_of_length_two _ Hlen) as (c1 & c2 & Hs).
  cbn [map JS.join fold_right]. rewrite Hs in *.
  cbn [String.append hexToArrayBuffer] in *.
  fold (JS.join (map (fun b => JS.padStart2 (JS.byte_toString16 b)) bytes)).
  rewrite IH. injection Hparse as ->. reflexivity.
Qed.

(** Whichever library serves it, [createHmac] is the keyed hash of the
    encoded key and message. *)
Lemma createHmac_eq (key message : string) :
  createHmac key message
  = hmacSha256 (JS.TextEncoder_encode key) (JS.TextEncoder_encode message).
Proof.
  unfold createHmac, CryptoJS_toString, CryptoJS_HmacSHA256.
  destruct subtleAvailable; [reflexivity | apply hexToArrayBuffer_hexString].
Qed.


(** *** Sets as insertion-ordered lists *)

Lemma Set_has_In (s : JS.NumSet) (x : Z) : JS.Set_has s x = true <-> In x s.
Proof.
  unfold JS.Set_has. rewrite existsb_exists. split.
  - intros (y & Hy & E). apply Z.eqb_eq in E. subst y. exact Hy.
  - intros H. exists x. split; [exact H | apply Z.eqb_refl].
Qed.

Lemma Set_has_not_In (s : JS.NumSet) (x : Z) : JS.Set_has s x = false <-> ~ In x s.
Proof.
  rewrite <- Set_has_In. destruct (JS.Set_has s x); split; congruence.
Qed.

Lemma Set_has_filter_other (a x : Z) (s : JS.NumSet) :
  x <> a ->
  JS.Set_has (filter (fun y => negb (a =? y)) s) x = JS.Set_has s x.
Proof.
  intros Hne.
  destruct (JS.Set_has s x) eqn:E.
  - apply Set_has_In. apply filter_In. split.
    + apply Set_has_In. exact E.
    + apply negb_true_iff. apply Z.eqb_neq. congruence.
  - apply Set_has_not_In. intros Hin. apply filter_In in Hin.
    apply Set_has_not_In in E. tauto.
Qed.

Lemma firstOccurrences_In (xs : list Z) (x : Z) :
  In x (firstOccurrences xs) <-> In x xs.
Proof.
  induction xs as [| a xs IH]; [reflexivity |].
  cbn [firstOccurrences In]. rewrite filter_In, IH, negb_true_iff, Z.eqb_neq.
  destruct (Z.eq_dec a x); intuition congruence.
Qed.

Lemma firstOccurrences_NoDup (xs : list Z) : NoDup (firstOccurrences xs).
Proof.
  induction xs as [| a xs IH]; [constructor |].
  cbn [firstOccurrences]. constructor.
  - rewrite filter_In, negb_true_iff, Z.eqb_neq. tauto.
  - apply NoDup_filter. exact IH.
Qed.

(** Adding to a set is listing one more value by first occurrence. *)
Lemma firstOccurrences_snoc (xs : list Z) (x : Z) :
  firstOccurrences (xs ++ [x]) = JS.Set_add (firstOccurrences xs) x.
Proof.
  induction xs as [| a xs IH]; [reflexivity |].
  cbn [app firstOccurrences]. rewrite IH.
  unfold JS.Set_add at 2. unfold JS.Set_has at 1. cbn [existsb].
  fold (JS.Set_has (filter (fun y => negb (a =? y)) (firstOccurrences xs)) x).
  destruct (Z.eq_dec x a) as [-> | Hne].
  - rewrite Z.eqb_refl. cbn [orb]. f_equal.
    unfold JS.Set_add. destruct (JS.Set_has (firstOccurrences xs) a); [reflexivity |].
    rewrite filter_app. cbn [filter]. rewrite Z.eqb_refl. cbn [negb].
    apply app_nil_r.
  - rewrite (proj2 (Z.eqb_neq x a) Hne). cbn [orb].
    rewrite Set_has_filter_other by assumption.
    unfold JS.Set_add. destruct (JS.Set_has (firstOccurrences xs) x); [reflexivity |].
    rewrite filter_app. cbn [filter].
    rewrite (proj2 (Z.eqb_neq a x)) by congruence. reflexivity.
Qed.

Lemma Set_add_length (s : JS.NumSet) (x : Z) :
  (List.length s <= List.length (JS.Set_add s x) <= S (List.length s))%nat.
Proof.
  unfold JS.Set_add. destruct (JS.Set_has s x); [lia |].
  rewrite length_app. cbn. lia.
Qed.


(** *** The buffered digests and the stream *)

Section StreamFacts.

Variables (serverSeed clientSeed : string) (nonce : Z).

Local Abbreviation prefix := (streamPrefix serverSeed clientSeed nonce).
Local Abbreviation block := (streamBlock serverSeed clientSeed nonce).
Local Abbreviation word := (streamWord serverSeed clientSeed nonce).

Lemma streamPrefix_S (m : nat) : prefix (S m) = prefix m ++ block m.
Proof.
  unfold streamPrefix. rewrite seq_S, map_app, concat_app.
  cbn [map List.concat plus]. rewrite app_nil_r. reflexivity.
Qed.

Lemma streamPrefix_length (m : nat) : List.length (prefix m) = (32 * m)%nat.
Proof.
  induction m as [| m IH]; [reflexivity |].
  rewrite streamPrefix_S, length_app, IH.
  unfold streamBlock. rewrite digest_length. lia.
Qed.

Lemma byteAt_streamPrefix (m k : nat) :
  (k < 32 * m)%nat ->
  JS.byteAt (prefix m) k = streamByte serverSeed clientSeed nonce k.
Proof.
  induction m as [| m IH]; intros Hk; [lia |].
  unfold JS.byteAt, streamByte in *. rewrite streamPrefix_S.
  destruct (Nat.lt_ge_cases k (32 * m)) as [Hlt | Hge].
  - rewrite nth_error_app1 by (rewrite streamPrefix_length; exact Hlt).
    apply IH. exact Hlt.
  - rewrite nth_error_app2 by (rewrite streamPrefix_length; exact Hge).
    rewrite streamPrefix_length.
    assert (Hq : (k / 32 = m)%nat)
      by (symmetry; apply Nat.div_unique with (r := (k - 32 * m)%nat); lia).
    assert (Hr : (k mod 32 = k - 32 * m)%nat)
      by (symmetry; apply Nat.mod_unique with (q := m); lia).
    rewrite Hq, Hr. reflexivity.
Qed.

(** A read at a word boundary of the buffer yields the draw of the
    stream at that place. *)
Lemma readUInt32BE_streamPrefix (m j : nat) :
  (4 * j + 3 < 32 * m)%nat -> readUInt32BE (prefix m) (4 * j) = word j.
Proof.
  intros H. rewrite readUInt32BE_eq. unfold streamWord.
  rewrite !byteAt_streamPrefix by lia. reflexivity.
Qed.

Lemma streamWord_range (j : nat) : 0 <= word j < 2 ^ 32.
Proof.
  unfold streamWord, streamByte.
  pose proof (byteAt_range (block ((4 * j) / 32)) ((4 * j) mod 32)).
  pose proof (byteAt_range (block ((4 * j + 1) / 32)) ((4 * j + 1) mod 32)).
  pose proof (byteAt_range (block ((4 * j + 2) / 32)) ((4 * j + 2) mod 32)).
  pose proof (byteAt_range (block ((4 * j + 3) / 32)) ((4 * j + 3) mod 32)).
  lia.
Qed.

Lemma draws_S (n : nat) :
  draws serverSeed clientSeed nonce (S n)
  = draws serverSeed clientSeed nonce n ++ [word n].
Proof. unfold draws. rewrite seq_S, map_app. reflexivity. Qed.

Lemma workingSet_S (range lower : Z) (n : nat) :
  workingSet serverSeed clientSeed nonce range lower (S n)
  = if word n <? sampleLimit range
    then JS.Set_add (workingSet serverSeed clientSeed nonce range lower n)
                    (word n mod range + lower)
    else workingSet serverSeed clientSeed nonce range lower n.
Proof.
  unfold workingSet, acceptedValues. rewrite draws_S, filter_app. cbn [filter].
  destruct (word n <? sampleLimit range).
  - rewrite map_app. cbn [map]. apply firstOccurrences_snoc.
  - rewrite app_nil_r. reflexivity.
Qed.

Lemma workingSet_length_S (range lower : Z) (n : nat) :
  (List.length (workingSet serverSeed clientSeed nonce range lower n)
   <= List.length (workingSet serverSeed clientSeed nonce range lower (S n))
   <= S (List.length (workingSet serverSeed clientSeed nonce range lower n)))%nat.
Proof.
  rewrite workingSet_S. destruct (word n <? sampleLimit range).
  - apply Set_add_length.
  - lia.
Qed.

Lemma blockMessage_S (i : nat) :
  (blockMessage clientSeed nonce 0 ++ ":" ++ JS.Number_toString (Z.of_nat (S i)))%string
  = blockMessage clientSeed nonce (S i).
Proof.
  unfold blockMessage.
  induction clientSeed as [| c s IH]; [reflexivity |].
  cbn [String.append] in *. f_equal. exact IH.
Qed.

(** Where the cursor stands with respect to the buffered blocks: block
    [(n - 1) / 8] is the last one buffered after [n] iterations. *)
Lemma block_index_step (n d : nat) :
  d = ((n - 1) / 8)%nat ->
  ((32 * S d < 4 * n + 4)%nat -> S d = (n / 8)%nat)
  /\ ((4 * n + 4 <= 32 * S d)%nat -> d = (n / 8)%nat)
  /\ ((32 * S d < 4 * n + 4)%nat <-> (4 * n = 32 * S d)%nat)
  /\ (4 * n <= 32 * S d)%nat.
Proof.
  intros ->.
  pose proof (Nat.div_mod_eq (n - 1) 8). pose proof (Nat.div_mod_eq n 8).
  pose proof (Nat.mod_upper_bound (n - 1) 8 ltac:(lia)).
  pose proof (Nat.mod_upper_bound n 8 ltac:(lia)).
  lia.
Qed.

(** One iteration keeps the loop in step with the stream. *)
Lemma loopBody_StreamInv (range limit lower : Z) (n : nat) (st : LoopState) :
  StreamInv serverSeed clientSeed nonce n st ->
  let st' := loopBody serverSeed (blockMessage clientSeed nonce 0)
                      range limit lower st in
  StreamInv serverSeed clientSeed nonce (S n) st'
  /\ readUInt32BE (digest st') (cursor st) = word n
  /\ (hmacCalls st' <> hmacCalls st <-> cursor st = List.length (digest st))
  /\ (cursor st <= List.length (digest st))%nat.
Proof.
  intros (Hc & Hi & Hd & Hl). cbv zeta.
  assert (Hlen : List.length (digest st) = (32 * S (digestIndex st))%nat)
    by (rewrite Hd; apply streamPrefix_length).
  destruct (block_index_step n (digestIndex st) Hi) as (Hext & Hkeep & Hiff & Hle).
  unfold loopBody, StreamInv.
  destruct (List.length (digest st) <? cursor st + 4)%nat eqn:E;
    cbn [digest results cursor digestIndex hmacCalls].
  - apply Nat.ltb_lt in E. rewrite Hlen, Hc in E.
    specialize (Hext E).
    replace (digestIndex st + 1)%nat with (S (digestIndex st)) by lia.
    rewrite blockMessage_S, createHmac_eq.
    fold (block (S (digestIndex st))).
    assert (Hdig : digest st ++ block (S (digestIndex st))
                   = prefix (S (S (digestIndex st))))
      by (rewrite (streamPrefix_S (S (digestIndex st))), <- Hd; reflexivity).
    rewrite Hdig.
    split; [| split; [| split]].
    + split; [lia |]. split; [replace (S n - 1)%nat with n by lia; exact Hext |].
      split; [reflexivity |].
      rewrite Hl, (seq_S (S (digestIndex st))), map_app. reflexivity.
    + rewrite Hc. apply readUInt32BE_streamPrefix.
      pose proof (Nat.div_mod_eq n 8).
      pose proof (Nat.mod_upper_bound n 8 ltac:(lia)). lia.
    + split; [intros _; lia |].
      intros _ Heq. apply (f_equal (@List.length _)) in Heq.
      rewrite length_app in Heq. cbn in Heq. lia.
    + lia.
  - apply Nat.ltb_ge in E. rewrite Hlen, Hc in E.
    specialize (Hkeep E).
    split; [| split; [| split]].
    + split; [lia |]. split; [replace (S n - 1)%nat with n by lia; exact Hkeep |].
      split; [exact Hd | exact Hl].
    + rewrite Hd, Hc. apply readUInt32BE_streamPrefix. lia.
    + split; [intros Hne; congruence | intros Heq; lia].
    + lia.
Qed.

Lemma initialState_StreamInv :
  StreamInv serverSeed clientSeed nonce 0
            (initialState serverSeed (blockMessage clientSeed nonce 0)).
Proof.
  unfold StreamInv, initialState. cbn [cursor digestIndex digest hmacCalls].
  repeat split. unfold streamPrefix. cbn [seq map List.concat].
  rewrite app_nil_r, createHmac_eq. reflexivity.
Qed.

Lemma stateAfter_StreamInv (range limit lower : Z) (n : nat) :
  StreamInv serverSeed clientSeed nonce n
            (stateAfter serverSeed clientSeed nonce range limit lower n).
Proof.
  induction n as [| n IH]; [apply initialState_StreamInv |].
  unfold stateAfter in *. cbn [Nat.iter].
  apply (loopBody_StreamInv range limit lower n _ IH).
Qed.

End StreamFacts.


(** *** One iteration of the sampler *)

(** An iteration reads the four bytes at the cursor (after the buffer has
    been extended if it had to be), moves the cursor past them, and adds
    the value of the draw to the set exactly when the draw is below the
    limit. *)
Lemma loopBody_step (serverSeed baseMsg : string) (range limit lower : Z)
      (st : LoopState) :
  let st' := loopBody serverSeed baseMsg range limit lower st in
  let v := readUInt32BE (digest st') (cursor st) in
  cursor st' = (cursor st + 4)%nat
  /\ results st' = (if v <? limit
                    then JS.Set_add (results st) (Z.rem v range + lower)
                    else results st)
  /\ ((cursor st + 4 <= List.length (digest st))%nat -> digest st' = digest st).
Proof.
  cbv zeta. unfold loopBody, JS.Set_add.
  destruct (List.length (digest st) <? cursor st + 4)%nat eqn:E;
    cbn [digest results cursor digestIndex hmacCalls].
  - apply Nat.ltb_lt in E. repeat split; [| lia].
    destruct (_ <? limit); [| reflexivity].
    destruct (JS.Set_has _ _); reflexivity.
  - repeat split.
    destruct (_ <? limit); [| reflexivity].
    destruct (JS.Set_has _ _); reflexivity.
Qed.

Section LoopFacts.

Variables (serverSeed clientSeed : string) (nonce range lower : Z).

Local Abbreviation after := (stateAfter serverSeed clientSeed nonce range
                                    (sampleLimit range) lower).
Local Abbreviation wset := (workingSet serverSeed clientSeed nonce range lower).

Lemma stateAfter_S (limit : Z) (n : nat) :
  stateAfter serverSeed clientSeed nonce range limit lower (S n)
  = loopBody serverSeed (blockMessage clientSeed nonce 0) range limit lower
             (stateAfter serverSeed clientSeed nonce range limit lower n).
Proof. reflexivity. Qed.

(** After [n] iterations the set holds the values accepted among the
    first [n] draws, in the order of their first occurrence. *)
Lemma stateAfter_results (n : nat) :
  0 < range -> results (after n) = wset n.
Proof.
  intros Hr. induction n as [| n IH]; [reflexivity |].
  rewrite stateAfter_S.
  pose proof (stateAfter_StreamInv serverSeed clientSeed nonce
                range (sampleLimit range) lower n) as Hinv.
  destruct (loopBody_StreamInv serverSeed clientSeed nonce
              range (sampleLimit range) lower n _ Hinv) as (_ & Hread & _).
  destruct (loopBody_step serverSeed (blockMessage clientSeed nonce 0)
              range (sampleLimit range) lower (after n)) as (_ & Hres & _).
  rewrite Hres, Hread, IH, workingSet_S.
  rewrite Z.rem_mod_nonneg
    by (pose proof (streamWord_range serverSeed clientSeed nonce n); lia).
  reflexivity.
Qed.

(** The loop leaves at the first iteration count whose set is large
    enough, and runs out of fuel when there is none within reach. *)
Lemma whileLoop_stateAfter (targetCount : Z) (fuel n : nat) :
  match whileLoop serverSeed (blockMessage clientSeed nonce 0) range
                  (sampleLimit range) lower targetCount fuel (after n) with
  | Returned st' =>
      exists m, (n <= m <= n + fuel)%nat /\ st' = after m
                /\ targetCount <= JS.Set_size (results (after m))
                /\ forall j, (n <= j < m)%nat ->
                             JS.Set_size (results (after j)) < targetCount
  | OutOfFuel =>
      forall j, (n <= j <= n + fuel)%nat ->
                JS.Set_size (results (after j)) < targetCount
  | Thrown _ => False
  end.
Proof.
  revert n. induction fuel as [| fuel IH]; intros n; cbn [whileLoop].
  - destruct (JS.Set_size (results (after n)) <? targetCount) eqn:E.
    + apply Z.ltb_lt in E. intros j Hj.
      replace j with n by lia. exact E.
    + apply Z.ltb_ge in E. exists n. repeat split; try lia.
  - destruct (JS.Set_size (results (after n)) <? targetCount) eqn:E.
    + apply Z.ltb_lt in E. rewrite <- stateAfter_S.
      specialize (IH (S n)).
      destruct (whileLoop _ _ _ _ _ _ fuel (after (S n))) as [st' | e |].
      * destruct IH as (m & Hm & Hst & Hge & Hlt).
        exists m. repeat split; try lia; try assumption.
        intros j Hj. destruct (Nat.eq_dec j n) as [-> | Hne];
          [exact E | apply Hlt; lia].
      * exact IH.
      * intros j Hj. destruct (Nat.eq_dec j n) as [-> | Hne];
          [exact E | apply IH; lia].
    + apply Z.ltb_ge in E. exists n. repeat split; try lia.
Qed.

(** The set grows by at most one value per draw, so it is left with
    exactly the size aimed at. *)
Lemma workingSet_reaches (targetCount : Z) (m : nat) :
  0 <= targetCount ->
  targetCount <= JS.Set_size (wset m) ->
  (forall j, (j < m)%nat -> JS.Set_size (wset j) < targetCount) ->
  JS.Set_size (wset m) = targetCount.
Proof.
  unfold JS.Set_size. intros H0 Hge Hlt.
  destruct m as [| m].
  - cbn in *. lia.
  - specialize (Hlt m (Nat.lt_succ_diag_r m)).
    pose proof (workingSet_length_S serverSeed clientSeed nonce range lower m).
    lia.
Qed.

Lemma workingSet_length_mono (n m : nat) :
  (n <= m)%nat -> (List.length (wset n) <= List.length (wset m))%nat.
Proof.
  induction 1 as [| m Hle IH]; [lia |].
  pose proof (workingSet_length_S serverSeed clientSeed nonce range lower m).
  lia.
Qed.

Lemma workingSet_NoDup (n : nat) : NoDup (wset n).
Proof. apply firstOccurrences_NoDup. Qed.

Lemma workingSet_bounds (n : nat) (x : Z) :
  0 < range -> In x (wset n) -> lower <= x <= lower + range - 1.
Proof.
  intros Hr Hin. unfold workingSet, acceptedValues in Hin.
  apply (proj1 (firstOccurrences_In _ _)) in Hin.
  apply (proj1 (in_map_iff _ _ _)) in Hin.
  destruct Hin as (v & <- & _).
  pose proof (Z.mod_pos_bound v range Hr). lia.
Qed.

End LoopFacts.


(** *** The interval and the inversion loop *)

Lemma interval_In (lower upper x : Z) :
  In x (interval lower upper) <-> lower <= x <= upper.
Proof.
  unfold interval. rewrite in_map_iff. split.
  - intros (k & <- & Hk). apply in_seq in Hk. lia.
  - intros H. exists (Z.to_nat (x - lower)). split; [lia |].
    apply in_seq. lia.
Qed.

Lemma interval_length (lower upper : Z) :
  List.length (interval lower upper) = Z.to_nat (upper - lower + 1).
Proof. unfold interval. rewrite length_map, length_seq. reflexivity. Qed.

Lemma interval_cons (lower upper : Z) :
  lower <= upper ->
  interval lower upper = lower :: interval (lower + 1) upper.
Proof.
  intros H. unfold interval.
  replace (Z.to_nat (upper - lower + 1))
    with (S (Z.to_nat (upper - (lower + 1) + 1))) by lia.
  cbn [seq map]. f_equal; [lia |].
  rewrite <- seq_shift, map_map. apply map_ext. intros k. lia.
Qed.

Lemma interval_empty (lower upper : Z) : upper < lower -> interval lower upper = [].
Proof.
  intros H. unfold interval.
  replace (Z.to_nat (upper - lower + 1)) with O by lia. reflexivity.
Qed.

Lemma interval_sorted (lower upper : Z) :
  StronglySorted Z.lt (interval lower upper).
Proof.
  unfold interval. generalize (Z.to_nat (upper - lower + 1)) as n.
  intros n. generalize 0%nat as s. induction n as [| n IH]; intros s; cbn [seq map].
  - constructor.
  - constructor; [apply IH |].
    apply Forall_forall. intros x Hx. apply in_map_iff in Hx.
    destruct Hx as (k & <- & Hk). apply in_seq in Hk. lia.
Qed.

Lemma interval_NoDup (lower upper : Z) : NoDup (interval lower upper).
Proof.
  unfold interval. apply Finite.Injective_map_NoDup; [| apply seq_NoDup].
  intros a b H. lia.
Qed.

Lemma filter_sorted (f : Z -> bool) (l : list Z) :
  StronglySorted Z.lt l -> StronglySorted Z.lt (filter f l).
Proof.
  induction 1 as [| a l Hs IH Hall]; cbn [filter]; [constructor |].
  destruct (f a); [| exact IH].
  constructor; [exact IH |].
  apply Forall_forall. intros x Hx. apply filter_In in Hx.
  rewrite Forall_forall in Hall. apply Hall. tauto.
Qed.

(** The [for] loop lists the integers of the range that the set lacks. *)
Lemma inversionLoop_eq (excluded : JS.NumSet) (upper : Z) (steps : nat) :
  forall i acc,
    steps = Z.to_nat (upper - i + 1) ->
    inversionLoop steps excluded i upper acc
    = acc ++ filter (fun x => negb (JS.Set_has excluded x)) (interval i upper).
Proof.
  induction steps as [| steps IH]; intros i acc Hs; cbn [inversionLoop].
  - rewrite interval_empty by lia. cbn. rewrite app_nil_r. reflexivity.
  - destruct (i <=? upper) eqn:E; [| apply Z.leb_gt in E; lia].
    apply Z.leb_le in E.
    rewrite IH by lia. rewrite (interval_cons i upper E). cbn [filter].
    destruct (negb (JS.Set_has excluded i)); [| reflexivity].
    rewrite <- app_assoc. reflexivity.
Qed.

(** What is left of a range after a duplicate-free part of it is removed. *)
Lemma complement_length (excluded l : list Z) :
  NoDup excluded -> NoDup l -> incl excluded l ->
  (List.length (filter (fun x => negb (JS.Set_has excluded x)) l)
   + List.length excluded = List.length l)%nat.
Proof.
  intros Hex Hl Hincl.
  pose proof (filter_length (fun x => JS.Set_has excluded x) l) as Hsplit.
  assert (Hsame : List.length (filter (fun x => JS.Set_has excluded x) l)
                  = List.length excluded).
  { apply Nat.le_antisymm.
    - apply NoDup_incl_length; [apply NoDup_filter; exact Hl |].
      intros x Hx. apply filter_In in Hx. apply Set_has_In. tauto.
    - apply NoDup_incl_length; [exact Hex |].
      intros x Hx. apply filter_In. split; [apply Hincl; exact Hx |].
      apply Set_has_In. exact Hx. }
  lia.
Qed.


(** *** The selector up to the end of its loop *)

Lemma selectorRun_outcome (fuel : nat) (count lower upper : Z)
      (serverSeed : string) (nonce : Z) (clientSeed : string) :
  0 < count -> lower <= upper -> count <= upper - lower + 1 ->
  let totalRange := upper - lower + 1 in
  let inversion := totalRange <? 2 * count in
  let targetCount := if inversion then totalRange - count else count in
  let wset := workingSet serverSeed clientSeed nonce totalRange lower in
  match selectorRun fuel count lower upper serverSeed nonce clientSeed with
  | Returned (b, st) =>
      b = inversion
      /\ exists m, (m <= fuel)%nat
                   /\ st = stateAfter serverSeed clientSeed nonce totalRange
                                      (sampleLimit totalRange) lower m
                   /\ results st = wset m
                   /\ JS.Set_size (wset m) = targetCount
                   /\ forall j, (j < m)%nat -> JS.Set_size (wset j) < targetCount
  | OutOfFuel =>
      forall j, (j <= fuel)%nat -> JS.Set_size (wset j) < targetCount
  | Thrown _ => False
  end.
Proof.
  intros Hc Hb Hr. cbv zeta. unfold selectorRun.
  destruct (count <=? 0) eqn:E1; [apply Z.leb_le in E1; lia |].
  destruct (upper <? lower) eqn:E2; [apply Z.ltb_lt in E2; lia |].
  destruct (upper - lower + 1 <? count) eqn:E3; [apply Z.ltb_lt in E3; lia |].
  set (totalRange := upper - lower + 1).
  set (targetCount := if totalRange <? 2 * count then totalRange - count else count).
  assert (Hpos : 0 < totalRange) by (unfold totalRange; lia).
  assert (Htarget : 0 <= targetCount)
    by (unfold targetCount; destruct (totalRange <? 2 * count); lia).
  pose proof (whileLoop_stateAfter serverSeed clientSeed nonce totalRange lower
                targetCount fuel 0) as Hloop.
  change (stateAfter serverSeed clientSeed nonce totalRange
                     (sampleLimit totalRange) lower 0)
    with (initialState serverSeed (blockMessage clientSeed nonce 0)) in Hloop.
  change (clientSeed ++ ":" ++ JS.Number_toString nonce)%string
    with (blockMessage clientSeed nonce 0).
  destruct (whileLoop _ _ _ _ _ _ fuel _) as [st | e |]; cbn [bind].
  - destruct Hloop as (m & Hm & -> & Hge & Hlt).
    split; [reflexivity |]. exists m.
    rewrite stateAfter_results in Hge by exact Hpos.
    assert (Hlt' : forall j, (j < m)%nat ->
              JS.Set_size (workingSet serverSeed clientSeed nonce totalRange lower j)
              < targetCount).
    { intros j Hj. rewrite <- stateAfter_results by exact Hpos. apply Hlt. lia. }
    repeat split.
    + lia.
    + apply stateAfter_results. exact Hpos.
    + apply workingSet_reaches; assumption.
    + exact Hlt'.
  - exact Hloop.
  - intros j Hj. rewrite <- stateAfter_results by exact Hpos. apply Hloop. lia.
Qed.

(** The selector throws exactly on its three guards, taken in order. *)
Lemma selectorRun_thrown (fuel : nat) (count lower upper : Z)
      (serverSeed : string) (nonce : Z) (clientSeed : string) :
  (count <= 0 ->
   selectorRun fuel count lower upper serverSeed nonce clientSeed
   = Thrown CountNotPositive)
  /\ (0 < count -> upper < lower ->
      selectorRun fuel count lower upper serverSeed nonce clientSeed
      = Thrown UpperBelowLower)
  /\ (0 < count -> lower <= upper -> upper - lower + 1 < count ->
      selectorRun fuel count lower upper serverSeed nonce clientSeed
      = Thrown (CannotGenerate count (upper - lower + 1))).
Proof.
  unfold selectorRun. repeat split.
  - intros H. rewrite (proj2 (Z.leb_le count 0) H). reflexivity.
  - intros H1 H2. rewrite (proj2 (Z.leb_gt count 0) H1).
    rewrite (proj2 (Z.ltb_lt upper lower) H2). reflexivity.
  - intros H1 H2 H3. rewrite (proj2 (Z.leb_gt count 0) H1).
    rewrite (proj2 (Z.ltb_ge upper lower) H2).
    rewrite (proj2 (Z.ltb_lt _ count) H3). reflexivity.
Qed.

(** The array the function returns, from the outcome of its loop. *)
Lemma getUniqueNumbersFromRange_outcome (fuel : nat) (count lower upper : Z)
      (serverSeed : string) (nonce : Z) (clientSeed : string) :
  0 < count -> lower <= upper -> count <= upper - lower + 1 ->
  let totalRange := upper - lower + 1 in
  let inversion := totalRange <? 2 * count in
  let targetCount := if inversion then totalRange - count else count in
  let wset := workingSet serverSeed clientSeed nonce totalRange lower in
  match getUniqueNumbersFromRange fuel count lower upper serverSeed nonce clientSeed with
  | Returned numbers =>
      exists m, (m <= fuel)%nat
                /\ JS.Set_size (wset m) = targetCount
                /\ (forall j, (j < m)%nat -> JS.Set_size (wset j) < targetCount)
                /\ numbers
                   = if inversion
                     then filter (fun x => negb (JS.Set_has (wset m) x))
                                 (interval lower upper)
                     else wset m
  | OutOfFuel =>
      forall j, (j <= fuel)%nat -> JS.Set_size (wset j) < targetCount
  | Thrown _ => False
  end.
Proof.
  intros Hc Hb Hr. cbv zeta. unfold getUniqueNumbersFromRange.
  pose proof (selectorRun_outcome fuel count lower upper serverSeed nonce
                clientSeed Hc Hb Hr) as Hrun.
  cbv zeta in Hrun.
  destruct (selectorRun fuel count lower upper serverSeed nonce clientSeed)
    as [[b st] | e |]; cbn [bind].
  - destruct Hrun as (-> & m & Hm & _ & Hres & Hsize & Hlt).
    destruct (upper - lower + 1 <? 2 * count).
    + exists m. repeat split; try assumption.
      rewrite inversionLoop_eq by reflexivity. rewrite Hres. reflexivity.
    + exists m. repeat split; try assumption.
  - exact Hrun.
  - exact Hrun.
Qed.


(** *** The unique selector *)

(** With fuel for [n] iterations the call returns as soon as the first
    [n] draws hold the number of distinct accepted values aimed at. *)
Lemma getUniqueNumbersFromRange_returns (fuel : nat) (count lower upper : Z)
      (serverSeed : string) (nonce : Z) (clientSeed : string) :
  0 < count -> lower <= upper -> count <= upper - lower + 1 ->
  let totalRange := upper - lower + 1 in
  let targetCount := if totalRange <? 2 * count then totalRange - count else count in
  (exists n, (n <= fuel)%nat
             /\ targetCount
                <= JS.Set_size (workingSet serverSeed clientSeed nonce
                                           totalRange lower n)) ->
  exists numbers,
    getUniqueNumbersFromRange fuel count lower upper serverSeed nonce clientSeed
    = Returned numbers.
Proof.
  intros Hc Hb Hr. cbv zeta. intros (n & Hn & Hge).
  pose proof (getUniqueNumbersFromRange_outcome fuel count lower upper serverSeed
                nonce clientSeed Hc Hb Hr) as Hout.
  cbv zeta in Hout.
  destruct (getUniqueNumbersFromRange fuel count lower upper serverSeed nonce
                                      clientSeed) as [numbers | e |].
  - exists numbers. reflexivity.
  - contradiction.
  - specialize (Hout n Hn). lia.
Qed.

(** A returned array has [count] elements, no two of them equal, all
    within the bounds. *)
Lemma getUniqueNumbersFromRange_returned (fuel : nat) (count lower upper : Z)
      (serverSeed : string) (nonce : Z) (clientSeed : string) (numbers : list Z) :
  0 < count -> lower <= upper -> count <= upper - lower + 1 ->
  getUniqueNumbersFromRange fuel count lower upper serverSeed nonce clientSeed
  = Returned numbers ->
  Z.of_nat (List.length numbers) = count
  /\ NoDup numbers
  /\ Forall (fun x => lower <= x <= upper) numbers.
Proof.
  intros Hc Hb Hr Hcall.
  pose proof (getUniqueNumbersFromRange_outcome fuel count lower upper serverSeed
                nonce clientSeed Hc Hb Hr) as Hout.
  cbv zeta in Hout. rewrite Hcall in Hout.
  set (totalRange := upper - lower + 1) in *.
  set (wset := workingSet serverSeed clientSeed nonce totalRange lower) in *.
  assert (Hpos : 0 < totalRange) by (unfold totalRange; lia).
  destruct Hout as (m & _ & Hsize & _ & Hnum).
  assert (Hin : forall x, In x (wset m) -> lower <= x <= upper).
  { intros x Hx. unfold wset in Hx.
    apply workingSet_bounds in Hx; [| exact Hpos]. unfold totalRange in Hx. lia. }
  destruct (totalRange <? 2 * count) eqn:E; subst numbers.
  - repeat split.
    + assert (Hlen : (List.length
                        (filter (fun x => negb (JS.Set_has (wset m) x))
                                (interval lower upper))
                      + List.length (wset m)
                      = List.length (interval lower upper))%nat).
      { apply complement_length.
        - apply workingSet_NoDup.
        - apply interval_NoDup.
        - intros x Hx. apply interval_In. apply Hin. exact Hx. }
      rewrite interval_length in Hlen. unfold JS.Set_size in Hsize.
      fold totalRange in Hlen. lia.
    + apply NoDup_filter. apply interval_NoDup.
    + apply Forall_forall. intros x Hx. apply filter_In in Hx.
      apply interval_In. tauto.
  - repeat split.
    + exact Hsize.
    + apply workingSet_NoDup.
    + apply Forall_forall. exact Hin.
Qed.

(** C2. Under the preconditions [count > 0], [upper >= lower] and
    [count <= upper - lower + 1], the array that
    [getUniqueNumbersFromRange] returns has exactly [count] elements, no two
    of them equal, all within [[lower, upper]].  The call does return, with
    fuel for [n] iterations, as soon as the first [n] draws of the stream
    hold the number of distinct accepted values the loop aims at. *)
Theorem unique_numbers_in_range (fuel : nat) (count lower upper : Z)
        (serverSeed : string) (nonce : Z) (clientSeed : string) :
  0 < count -> lower <= upper -> count <= upper - lower + 1 ->
  let totalRange := upper - lower + 1 in
  let targetCount := if totalRange <? 2 * count then totalRange - count else count in
  let call := getUniqueNumbersFromRange fuel count lower upper
                                        serverSeed nonce clientSeed in
  (forall numbers,
      call = Returned numbers ->
      Z.of_nat (List.length numbers) = count
      /\ NoDup numbers
      /\ Forall (fun x => lower <= x <= upper) numbers)
  /\ ((exists n, (n <= fuel)%nat
                 /\ targetCount
                    <= JS.Set_size (workingSet serverSeed clientSeed nonce
                                               totalRange lower n))
      -> exists numbers, call = Returned numbers).
Proof.
  intros Hc Hb Hr. cbv zeta. split.
  - intros numbers Hcall.
    exact (getUniqueNumbersFromRange_returned fuel count lower upper serverSeed
             nonce clientSeed numbers Hc Hb Hr Hcall).
  - apply (getUniqueNumbersFromRange_returns fuel count lower upper serverSeed
             nonce clientSeed Hc Hb Hr).
Qed.


(** C7. For [totalRange / 2 < count < totalRange] the call for [count]
    numbers (inverted path) and the call for [totalRange - count] numbers
    (direct path) run the same loop: with the same fuel either both return
    or both are still running, and when they return, the first array holds
    the integers of [[lower, upper]] that the second lacks. *)
Theorem inversion_equivalence (fuel : nat) (count lower upper : Z)
        (serverSeed : string) (nonce : Z) (clientSeed : string) :
  lower <= upper ->
  upper - lower + 1 < 2 * count -> count < upper - lower + 1 ->
  match getUniqueNumbersFromRange fuel count lower upper
                                  serverSeed nonce clientSeed,
        getUniqueNumbersFromRange fuel (upper - lower + 1 - count) lower upper
                                  serverSeed nonce clientSeed
  with
  | Returned most, Returned few =>
      forall x, In x most <-> (lower <= x <= upper /\ ~ In x few)
  | OutOfFuel, OutOfFuel => True
  | _, _ => False
  end.
Proof.
  intros Hb Hhalf Hlt.
  assert (Hc : 0 < count) by lia.
  pose proof (getUniqueNumbersFromRange_outcome fuel count lower upper serverSeed
                nonce clientSeed Hc Hb ltac:(lia)) as H1.
  pose proof (getUniqueNumbersFromRange_outcome fuel (upper - lower + 1 - count)
                lower upper serverSeed nonce clientSeed
                ltac:(lia) Hb ltac:(lia)) as H2.
  cbv zeta in H1, H2.
  rewrite (proj2 (Z.ltb_lt _ _) Hhalf) in H1.
  rewrite (proj2 (Z.ltb_ge (upper - lower + 1)
                           (2 * (upper - lower + 1 - count))) ltac:(lia)) in H2.
  set (wset := workingSet serverSeed clientSeed nonce (upper - lower + 1) lower) in *.
  destruct (getUniqueNumbersFromRange fuel count lower upper serverSeed nonce
                                      clientSeed) as [most | e |];
    destruct (getUniqueNumbersFromRange fuel (upper - lower + 1 - count) lower
                                        upper serverSeed nonce clientSeed)
      as [few | e' |]; try contradiction; try exact I.
  - destruct H1 as (m1 & _ & Hs1 & Hm1 & ->).
    destruct H2 as (m2 & _ & Hs2 & Hm2 & ->).
    assert (m1 = m2).
    { destruct (Nat.lt_trichotomy m1 m2) as [Hl | [He | Hg]]; [| exact He |].
      - specialize (Hm2 m1 Hl). lia.
      - specialize (Hm1 m2 Hg). lia. }
    subst m2. intros x.
    rewrite filter_In, interval_In, negb_true_iff, Set_has_not_In. reflexivity.
  - destruct H1 as (m1 & Hle & Hs1 & _). specialize (H2 m1 Hle). lia.
  - destruct H2 as (m2 & Hle & Hs2 & _). specialize (H1 m2 Hle). lia.
Qed.


(** *** What keeps the loop running *)

(** From [2^32] on the modulus exceeds the constant and the limit is 0. *)
Lemma sampleLimit_wide (range : Z) : 2 ^ 32 <= range -> sampleLimit range = 0.
Proof.
  intros Hwide. unfold sampleLimit, MAX_UINT32.
  change (2 ^ 32) with 4294967296 in Hwide.
  rewrite Z.rem_small by lia. lia.
Qed.

(** The working set is empty until a draw is accepted. *)
Lemma workingSet_nonempty_accepted (serverSeed clientSeed : string)
      (nonce range lower : Z) (n : nat) :
  1 <= JS.Set_size (workingSet serverSeed clientSeed nonce range lower n) ->
  exists j, (j < n)%nat
            /\ streamWord serverSeed clientSeed nonce j < sampleLimit range.
Proof.
  induction n as [| n IH].
  - assert (E : workingSet serverSeed clientSeed nonce range lower 0 = [])
      by reflexivity.
    rewrite E. unfold JS.Set_size. cbn [List.length Z.of_nat]. lia.
  - rewrite workingSet_S.
    destruct (streamWord serverSeed clientSeed nonce n <? sampleLimit range) eqn:E.
    + intros _. exists n. split; [lia | apply Z.ltb_lt; exact E].
    + intros H. destruct (IH H) as (j & Hj & Hacc).
      exists j. split; [lia | exact Hacc].
Qed.

(** On a range of [2^32] integers or more a call for fewer numbers than
    the range holds is still in its loop whatever the fuel. *)
Lemma getUniqueNumbersFromRange_wide (fuel : nat) (count lower upper : Z)
      (serverSeed : string) (nonce : Z) (clientSeed : string) :
  2 ^ 32 <= upper - lower + 1 -> 0 < count < upper - lower + 1 ->
  getUniqueNumbersFromRange fuel count lower upper serverSeed nonce clientSeed
  = OutOfFuel.
Proof.
  intros Hwide Hcount.
  pose proof (getUniqueNumbersFromRange_outcome fuel count lower upper serverSeed
                nonce clientSeed ltac:(lia) ltac:(lia) ltac:(lia)) as Hout.
  cbv zeta in Hout.
  destruct (getUniqueNumbersFromRange fuel count lower upper serverSeed nonce
                                      clientSeed) as [numbers | e |];
    [| contradiction | reflexivity].
  destruct Hout as (m & _ & Hsize & _). exfalso.
  destruct (workingSet_nonempty_accepted serverSeed clientSeed nonce
              (upper - lower + 1) lower m) as (j & _ & Hacc).
  { rewrite Hsize. destruct (upper - lower + 1 <? 2 * count); lia. }
  rewrite sampleLimit_wide in Hacc by exact Hwide.
  pose proof (streamWord_range serverSeed clientSeed nonce j). lia.
Qed.



(** C9. On the inversion path ([count > totalRange / 2]) the returned
    array is in strictly increasing order; on the direct path
    ([count <= totalRange / 2]) it lists the values accepted among the [m]
    draws consumed, each at the place of its first accepted draw, [m] being
    the least number of draws that hold [count] distinct accepted values. *)
Theorem output_order (fuel : nat) (count lower upper : Z)
        (serverSeed : string) (nonce : Z) (clientSeed : string)
        (numbers : list Z) :
  0 < count -> lower <= upper -> count <= upper - lower + 1 ->
  getUniqueNumbersFromRange fuel count lower upper serverSeed nonce clientSeed
  = Returned numbers ->
  let totalRange := upper - lower + 1 in
  (totalRange < 2 * count -> StronglySorted Z.lt numbers)
  /\ (2 * count <= totalRange ->
      exists m, (m <= fuel)%nat
                /\ numbers
                   = firstOccurrences
                       (acceptedValues totalRange lower
                                       (draws serverSeed clientSeed nonce m))
                /\ forall j, (j < m)%nat ->
                      Z.of_nat
                        (List.length
                           (firstOccurrences
                              (acceptedValues totalRange lower
                                 (draws serverSeed clientSeed nonce j))))
                      < count).
Proof.
  intros Hc Hb Hr Hcall. cbv zeta.
  pose proof (getUniqueNumbersFromRange_outcome fuel count lower upper serverSeed
                nonce clientSeed Hc Hb Hr) as Hout.
  cbv zeta in Hout. rewrite Hcall in Hout.
  destruct Hout as (m & Hm & _ & Hmin & Hnum).
  split.
  - intros Hhalf. rewrite (proj2 (Z.ltb_lt _ _) Hhalf) in Hnum. subst numbers.
    apply filter_sorted. apply interval_sorted.
  - intros Hhalf. rewrite (proj2 (Z.ltb_ge _ _) Hhalf) in Hnum, Hmin.
    exists m. split; [exact Hm |]. split; [exact Hnum | exact Hmin].
Qed.

Lemma workingSet_accepted_nonempty (serverSeed clientSeed : string)
      (nonce range lower : Z) (j : nat) :
  streamWord serverSeed clientSeed nonce j < sampleLimit range ->
  1 <= JS.Set_size (workingSet serverSeed clientSeed nonce range lower (S j)).
Proof.
  intros Hacc. rewrite workingSet_S. rewrite (proj2 (Z.ltb_lt _ _) Hacc).
  unfold JS.Set_size, JS.Set_add.
  destruct (JS.Set_has _ _) eqn:E.
  - apply Set_has_In in E.
    destruct (workingSet serverSeed clientSeed nonce range lower j);
      [contradiction | cbn; lia].
  - rewrite length_app. cbn. lia.
Qed.

(** C10. For [upper >= lower], [getNumberFromRange] never throws, its
    'Failed to generate any numbers' error included: when the inner call
    for one number returns, its array has one element, within the bounds,
    and [getNumberFromRange] returns that element; while the inner call is
    still running, so is [getNumberFromRange].  It returns exactly when
    the range is a single integer or a draw within reach of the fuel is
    accepted; on a range of [2^32] integers or more no draw is, and it
    never returns. *)
Theorem failure_branch_unreachable (fuel : nat) (lower upper : Z)
        (serverSeed : string) (nonce : Z) (clientSeed : string) :
  lower <= upper ->
  let call := getNumberFromRange fuel lower upper serverSeed nonce clientSeed in
  let inner := getUniqueNumbersFromRange fuel 1 lower upper
                                         serverSeed nonce clientSeed in
  (forall e, call <> Thrown e)
  /\ (forall numbers,
         inner = Returned numbers ->
         exists x, numbers = [x] /\ call = Returned x /\ lower <= x <= upper)
  /\ (inner = OutOfFuel -> call = OutOfFuel)
  /\ ((exists x, call = Returned x)
      <-> (upper = lower
           \/ exists j, (j < fuel)%nat
                        /\ streamWord serverSeed clientSeed nonce j
                           < sampleLimit (upper - lower + 1)))
  /\ (2 ^ 32 <= upper - lower + 1 -> call = OutOfFuel).
Proof.
  intros Hb. cbv zeta.
  assert (Hshape : forall numbers,
             getUniqueNumbersFromRange fuel 1 lower upper serverSeed nonce
                                       clientSeed = Returned numbers ->
             exists x, numbers = [x] /\ lower <= x <= upper).
  { intros numbers Hret.
    destruct (getUniqueNumbersFromRange_returned fuel 1 lower upper serverSeed
                nonce clientSeed numbers ltac:(lia) Hb ltac:(lia) Hret)
      as (Hlen & _ & Hall).
    destruct numbers as [| x [| y rest]]; cbn in Hlen; try lia.
    exists x. split; [reflexivity |]. inversion Hall. assumption. }
  assert (Hnothrow : forall e,
             getUniqueNumbersFromRange fuel 1 lower upper serverSeed nonce
                                       clientSeed <> Thrown e).
  { intros e He.
    pose proof (getUniqueNumbersFromRange_outcome fuel 1 lower upper serverSeed
                  nonce clientSeed ltac:(lia) Hb ltac:(lia)) as Hout.
    cbv zeta in Hout. rewrite He in Hout. exact Hout. }
  assert (Hreach : (exists numbers,
                       getUniqueNumbersFromRange fuel 1 lower upper serverSeed
                                                 nonce clientSeed
                       = Returned numbers)
                   <-> (upper = lower
                        \/ exists j, (j < fuel)%nat
                                     /\ streamWord serverSeed clientSeed nonce j
                                        < sampleLimit (upper - lower + 1))).
  { split.
    - intros (numbers & Hret).
      pose proof (getUniqueNumbersFromRange_outcome fuel 1 lower upper serverSeed
                    nonce clientSeed ltac:(lia) Hb ltac:(lia)) as Hout.
      cbv zeta in Hout. rewrite Hret in Hout.
      destruct Hout as (m & Hm & Hsize & _).
      destruct (Z.eq_dec upper lower) as [Heq | Hne]; [left; exact Heq | right].
      rewrite (proj2 (Z.ltb_ge (upper - lower + 1) (2 * 1)) ltac:(lia)) in Hsize.
      destruct (workingSet_nonempty_accepted serverSeed clientSeed nonce
                  (upper - lower + 1) lower m ltac:(lia)) as (j & Hj & Hacc).
      exists j. split; [lia | exact Hacc].
    - intros Hcond.
      apply (getUniqueNumbersFromRange_returns fuel 1 lower upper serverSeed
               nonce clientSeed ltac:(lia) Hb ltac:(lia)).
      cbv zeta. destruct Hcond as [Heq | (j & Hj & Hacc)].
      + exists 0%nat. split; [lia |].
        rewrite (proj2 (Z.ltb_lt (upper - lower + 1) (2 * 1)) ltac:(lia)).
        cbn. lia.
      + exists (S j). split; [lia |].
        pose proof (workingSet_accepted_nonempty serverSeed clientSeed nonce
                      (upper - lower + 1) lower j Hacc).
        destruct (upper - lower + 1 <? 2 * 1) eqn:E;
          [apply Z.ltb_lt in E | apply Z.ltb_ge in E]; lia. }
  assert (Hwide : 2 ^ 32 <= upper - lower + 1 ->
                  getUniqueNumbersFromRange fuel 1 lower upper serverSeed nonce
                                            clientSeed = OutOfFuel).
  { intros Hw. apply getUniqueNumbersFromRange_wide; [exact Hw |].
    change (2 ^ 32) with 4294967296 in Hw. lia. }
  unfold getNumberFromRange.
  destruct (getUniqueNumbersFromRange fuel 1 lower upper serverSeed nonce
                                      clientSeed) as [numbers | e |];
    cbn [bind].
  - destruct (Hshape numbers eq_refl) as (x & -> & Hx).
    split; [intros e He; discriminate He |].
    split; [intros numbers Hn; injection Hn as <-; exists x; repeat split; lia |].
    split; [intros Hn; discriminate Hn |].
    split.
    + split; [intros _; apply Hreach; eexists; reflexivity
             | intros _; exists x; reflexivity].
    + intros Hw. specialize (Hwide Hw). discriminate Hwide.
  - exfalso. exact (Hnothrow e eq_refl).
  - split; [intros e He; discriminate He |].
    split; [intros numbers Hn; discriminate Hn |].
    split; [intros _; reflexivity |].
    split.
    + split; [intros (x & Hx); discriminate Hx |].
      intros Hcond. apply Hreach in Hcond. destruct Hcond as (numbers & Hn).
      discriminate Hn.
    + intros _. reflexivity.
Qed.


(** *** The keyed-hash stream *)

(** C3. Every keyed-hash invocation of [getUniqueNumbersFromRange] has the
    server seed as its key; the message of block 0 is [clientSeed:nonce]
    and that of block [i >= 1] is [clientSeed:nonce:i]; the blocks are
    requested in increasing order of index, one more exactly when the cursor
    has reached the end of the buffered bytes; and the candidate of
    iteration [n] is the big-endian value of bytes [4n .. 4n+3] of the
    concatenated digests.  The state the loop is left in is the state after
    some number of iterations, so all of this holds of the whole call. *)
Theorem hmac_stream_discipline (serverSeed clientSeed : string) (nonce : Z) :
  (forall fuel count lower upper inversion st,
      selectorRun fuel count lower upper serverSeed nonce clientSeed
      = Returned (inversion, st) ->
      exists n, (n <= fuel)%nat
                /\ st = stateAfter serverSeed clientSeed nonce (upper - lower + 1)
                                   (sampleLimit (upper - lower + 1)) lower n)
  /\ blockMessage clientSeed nonce 0
     = (clientSeed ++ ":" ++ JS.Number_toString nonce)%string
  /\ (forall i, (1 <= i)%nat ->
                blockMessage clientSeed nonce i
                = (clientSeed ++ ":" ++ JS.Number_toString nonce
                   ++ ":" ++ JS.Number_toString (Z.of_nat i))%string)
  /\ forall range limit lower n,
      let st := stateAfter serverSeed clientSeed nonce range limit lower n in
      let st' := stateAfter serverSeed clientSeed nonce range limit lower (S n) in
      hmacCalls st
      = map (fun i => (serverSeed, blockMessage clientSeed nonce i))
            (seq 0 (S (digestIndex st)))
      /\ digest st
         = List.concat
             (map (fun i => hmacSha256 (JS.TextEncoder_encode serverSeed)
                              (JS.TextEncoder_encode (blockMessage clientSeed nonce i)))
                  (seq 0 (S (digestIndex st))))
      /\ cursor st = (4 * n)%nat
      /\ digestIndex st = ((n - 1) / 8)%nat
      /\ (hmacCalls st' <> hmacCalls st <-> cursor st = List.length (digest st))
      /\ (cursor st <= List.length (digest st))%nat
      /\ readUInt32BE (digest st') (cursor st)
         = streamWord serverSeed clientSeed nonce n
      /\ streamWord serverSeed clientSeed nonce n
         = 2 ^ 24 * JS.byteAt (digest st') (4 * n)
           + 2 ^ 16 * JS.byteAt (digest st') (4 * n + 1)
           + 2 ^ 8 * JS.byteAt (digest st') (4 * n + 2)
           + JS.byteAt (digest st') (4 * n + 3).
Proof.
  repeat split.
  - intros fuel count lower upper inversion st Hrun.
    assert (Hpre : 0 < count /\ lower <= upper /\ count <= upper - lower + 1).
    { destruct (selectorRun_thrown fuel count lower upper serverSeed nonce
                  clientSeed) as (T1 & T2 & T3).
      destruct (Z_le_gt_dec count 0) as [H1 | H1];
        [rewrite T1 in Hrun by exact H1; discriminate |].
      destruct (Z_lt_ge_dec upper lower) as [H2 | H2];
        [rewrite T2 in Hrun by lia; discriminate |].
      destruct (Z_lt_ge_dec (upper - lower + 1) count) as [H3 | H3];
        [rewrite T3 in Hrun by lia; discriminate |].
      lia. }
    destruct Hpre as (Hc & Hb & Hr).
    pose proof (selectorRun_outcome fuel count lower upper serverSeed nonce
                  clientSeed Hc Hb Hr) as Hout.
    cbv zeta in Hout. rewrite Hrun in Hout.
    destruct Hout as (_ & m & Hm & Hst & _). exists m. split; assumption.
  - intros i Hi. destruct i as [| i]; [lia | reflexivity].
  - apply (stateAfter_StreamInv serverSeed clientSeed nonce range limit lower n).
  - apply (stateAfter_StreamInv serverSeed clientSeed nonce range limit lower n).
  - apply (stateAfter_StreamInv serverSeed clientSeed nonce range limit lower n).
  - apply (stateAfter_StreamInv serverSeed clientSeed nonce range limit lower n).
  - apply (loopBody_StreamInv serverSeed clientSeed nonce range limit lower n _
             (stateAfter_StreamInv serverSeed clientSeed nonce range limit lower n)).
  - apply (loopBody_StreamInv serverSeed clientSeed nonce range limit lower n _
             (stateAfter_StreamInv serverSeed clientSeed nonce range limit lower n)).
  - apply (loopBody_StreamInv serverSeed clientSeed nonce range limit lower n _
             (stateAfter_StreamInv serverSeed clientSeed nonce range limit lower n)).
  - apply (loopBody_StreamInv serverSeed clientSeed nonce range limit lower n _
             (stateAfter_StreamInv serverSeed clientSeed nonce range limit lower n)).
  - destruct (loopBody_StreamInv serverSeed clientSeed nonce range limit lower n _
                (stateAfter_StreamInv serverSeed clientSeed nonce range limit lower n))
      as (_ & Hread & _).
    cbv zeta in Hread. rewrite stateAfter_S, <- Hread, readUInt32BE_eq.
    destruct (stateAfter_StreamInv serverSeed clientSeed nonce range limit lower n)
      as (-> & _). reflexivity.
Qed.


(** *** The rejection sampler *)

Lemma sampleLimit_eq (range : Z) :
  0 < range -> sampleLimit range = (2 ^ 32 - 1) / range * range.
Proof.
  intros Hr. unfold sampleLimit, MAX_UINT32.
  change (2 ^ 32 - 1) with 4294967295.
  rewrite Z.rem_mod_nonneg by lia.
  pose proof (Z.div_mod 4294967295 range ltac:(lia)). lia.
Qed.

(** C1, as the code has it.  For a modulus [0 < range < 2^32] the limit is
    [floor((2^32 - 1) / range) * range], the largest multiple of [range]
    not exceeding [2^32 - 1]; an iteration reads the four bytes at the
    cursor as a big-endian value [v] and moves the cursor past them; it adds
    [v mod range + lower] to the set if and only if [v < limit], and leaves
    the set as it is otherwise. *)
Theorem sampler_limit_and_acceptance (range : Z) :
  0 < range < 2 ^ 32 ->
  sampleLimit range = (2 ^ 32 - 1) / range * range
  /\ (range | sampleLimit range)
  /\ sampleLimit range <= 2 ^ 32 - 1
  /\ (forall m, (range | m) -> m <= 2 ^ 32 - 1 -> m <= sampleLimit range)
  /\ forall serverSeed baseMsg lower st,
      let st' := loopBody serverSeed baseMsg range (sampleLimit range) lower st in
      let v := readUInt32BE (digest st') (cursor st) in
      v = 2 ^ 24 * JS.byteAt (digest st') (cursor st)
          + 2 ^ 16 * JS.byteAt (digest st') (cursor st + 1)
          + 2 ^ 8 * JS.byteAt (digest st') (cursor st + 2)
          + JS.byteAt (digest st') (cursor st + 3)
      /\ 0 <= v < 2 ^ 32
      /\ cursor st' = (cursor st + 4)%nat
      /\ (v < sampleLimit range ->
          results st' = JS.Set_add (results st) (v mod range + lower))
      /\ (sampleLimit range <= v -> results st' = results st).
Proof.
  intros Hr.
  assert (Heq : sampleLimit range = (2 ^ 32 - 1) / range * range)
    by (apply sampleLimit_eq; lia).
  assert (Hdiv : 0 <= (2 ^ 32 - 1) / range) by (apply Z.div_pos; lia).
  split; [exact Heq |]. split; [| split; [| split]].
  - rewrite Heq. exists ((2 ^ 32 - 1) / range). reflexivity.
  - rewrite Heq. pose proof (Z.mul_div_le (2 ^ 32 - 1) range ltac:(lia)). lia.
  - intros m (k & ->) Hm. rewrite Heq.
    apply Z.mul_le_mono_nonneg_r; [lia |].
    apply Z.div_le_lower_bound; lia.
  - intros serverSeed baseMsg lower st. cbv zeta.
    destruct (loopBody_step serverSeed baseMsg range (sampleLimit range) lower st)
      as (Hcur & Hres & _).
    pose proof (readUInt32BE_range
                  (digest (loopBody serverSeed baseMsg range (sampleLimit range)
                                    lower st)) (cursor st)) as Hv.
    split; [apply readUInt32BE_eq |].
    split; [exact Hv |].
    split; [exact Hcur |].
    split.
    + intros Hlt. rewrite Hres. rewrite (proj2 (Z.ltb_lt _ _) Hlt).
      rewrite Z.rem_mod_nonneg by lia. reflexivity.
    + intros Hge. rewrite Hres. rewrite (proj2 (Z.ltb_ge _ _) Hge). reflexivity.
Qed.

(** *** The seed commitment *)

Lemma matchAll_chunksOfTwo (s : string) :
  (hasLineTerminator s = false -> matchAll s = chunksOfTwo s)
  /\ forall c, hasLineTerminator (String c s) = false ->
               matchAll (String c s) = chunksOfTwo (String c s).
Proof.
  induction s as [| c' s IH].
  - split; [reflexivity |]. intros c H. cbn in *.
    rewrite orb_false_r in H. rewrite H. reflexivity.
  - destruct IH as (IH1 & IH2). split; [apply IH2 |].
    intros c H. cbn [hasLineTerminator] in H.
    apply orb_false_iff in H. destruct H as (Hc & H).
    apply orb_false_iff in H. destruct H as (Hc' & Hs).
    cbn [matchAll chunksOfTwo]. rewrite Hc, Hc'. f_equal. apply IH1. exact Hs.
Qed.

(** On a seed free of line terminators the salt is the seed's chunks of
    two characters in reverse order; the empty seed is its own salt. *)
Lemma saltOf_reversedChunks (seed : string) :
  hasLineTerminator seed = false -> saltOf seed = reversedChunks seed.
Proof.
  intros H. unfold saltOf, String_match, reversedChunks.
  rewrite (proj1 (matchAll_chunksOfTwo seed) H).
  destruct seed as [| c1 [| c2 rest]]; reflexivity.
Qed.

Lemma hexString_lowercase (bytes : list byte) :
  allLowerHex (hexString bytes) = true
  /\ String.length (hexString bytes) = (2 * List.length bytes)%nat.
Proof.
  unfold hexString. induction bytes as [| b bytes (IH1 & IH2)]; [split; reflexivity |].
  cbn [map JS.join fold_right].
  fold (JS.join (map (fun b => JS.padStart2 (JS.byte_toString16 b)) bytes)).
  destruct (hexPair_shape b) as (Hlen & _ & Hlow).
  destruct (string_of_length_two _ Hlen) as (c1 & c2 & Hs).
  rewrite Hs in *. cbn [allLowerHex] in Hlow.
  apply andb_true_iff in Hlow. destruct Hlow as (H1 & Hlow).
  apply andb_true_iff in Hlow. destruct Hlow as (H2 & _).
  cbn [String.append allLowerHex String.length List.length].
  rewrite H1, H2, IH1, IH2. split; [reflexivity | lia].
Qed.

(** Both branches of either variant hash the same key and message. *)
Lemma getHashBySeed_eq (seed : string) :
  getHashBySeed seed
  = hexString (hmacSha256 (JS.TextEncoder_encode (seed ++ saltOf seed))
                          (JS.TextEncoder_encode ""))
  /\ getHashBySeed_embedded seed
     = hexString (hmacSha256 (JS.TextEncoder_encode seed)
                             (JS.TextEncoder_encode (seed ++ saltOf seed))).
Proof.
  unfold getHashBySeed, getHashBySeed_embedded, CryptoJS_toString,
    CryptoJS_HmacSHA256.
  rewrite !createHmac_eq. destruct cryptoJSDefined; split; reflexivity.
Qed.

(** The commitment on a seed free of line terminators: [getHashBySeed]
    returns the lowercase hexadecimal text of
    the keyed hash of the empty message under the key [seed + salt], the
    salt being the two-character chunks of the seed in reverse order (an odd
    seed ends in a chunk of one character; the empty seed has itself as
    salt); nothing but the seed and the hash function enters the result. *)
Theorem getHashBySeed_commitment (seed : string) :
  hasLineTerminator seed = false ->
  let digestBytes :=
    hmacSha256 (JS.TextEncoder_encode (seed ++ reversedChunks seed)) [] in
  getHashBySeed seed = hexString digestBytes
  /\ allLowerHex (hexString digestBytes) = true
  /\ String.length (hexString digestBytes) = (2 * List.length digestBytes)%nat
  /\ hexToArrayBuffer (hexString digestBytes) = digestBytes
  /\ (seed = EmptyString -> saltOf seed = seed).
Proof.
  intros H. cbv zeta.
  destruct (getHashBySeed_eq seed) as (Hpf & _).
  rewrite Hpf, (saltOf_reversedChunks seed H).
  repeat split.
  - apply hexString_lowercase.
  - apply hexString_lowercase.
  - apply hexToArrayBuffer_hexString.
  - intros ->. reflexivity.
Qed.


(** ** Further properties of the code *)

(** *** Hexadecimal text and bytes *)

(** X1. Decoding the hexadecimal text of some bytes gives the bytes back;
    the text has two characters per byte, all of them lowercase
    hexadecimal digits. *)
Theorem hex_decode_encode (bytes : list byte) :
  hexToArrayBuffer (hexString bytes) = bytes
  /\ String.length (hexString bytes) = (2 * List.length bytes)%nat
  /\ allLowerHex (hexString bytes) = true.
Proof.
  split; [apply hexToArrayBuffer_hexString |].
  split; apply hexString_lowercase.
Qed.

Lemma lowerHexDigit_cases (c : ascii) :
  isLowerHexDigit c = true ->
  In c (list_ascii_of_string "0123456789abcdef").
Proof.
  destruct c as [[] [] [] [] [] [] [] []]; vm_compute; intros H;
    try discriminate H;
    repeat (first [left; reflexivity | right]).
Qed.

Lemma hexPair_encode_decode (c1 c2 : ascii) :
  isLowerHexDigit c1 = true -> isLowerHexDigit c2 = true ->
  JS.padStart2 (JS.byte_toString16 (JS.parseHexPair c1 c2))
  = String c1 (String c2 EmptyString).
Proof.
  intros H1 H2.
  apply lowerHexDigit_cases in H1. apply lowerHexDigit_cases in H2.
  cbn [list_ascii_of_string In] in H1, H2.
  repeat (destruct H1 as [<- | H1]); try contradiction;
    repeat (destruct H2 as [<- | H2]); try contradiction; reflexivity.
Qed.

(** X2. [hexToArrayBuffer] yields one byte for every two characters of
    any string (a last odd character is dropped), and on a string of
    lowercase hexadecimal digits of even length, encoding what it decodes
    gives the string back. *)
Theorem hex_encode_decode :
  (forall s, List.length (hexToArrayBuffer s) = (String.length s / 2)%nat)
  /\ forall hex,
      allLowerHex hex = true -> evenLength hex = true ->
      hexString (hexToArrayBuffer hex) = hex.
Proof.
  split.
  - assert (H : forall s,
               List.length (hexToArrayBuffer s) = (String.length s / 2)%nat
               /\ forall c, List.length (hexToArrayBuffer (String c s))
                            = (String.length (String c s) / 2)%nat).
    { induction s as [| c' s (IH1 & IH2)].
      - split; [reflexivity |]. intros c. reflexivity.
      - split; [apply IH2 |]. intros c.
        cbn [hexToArrayBuffer List.length String.length]. rewrite IH1.
        change (S (S (String.length s))) with (2 + String.length s)%nat.
        replace (2 + String.length s)%nat with (String.length s + 1 * 2)%nat by lia.
        rewrite Nat.div_add by lia. lia. }
    intros s. apply H.
  - assert (H : forall hex,
               (allLowerHex hex = true -> evenLength hex = true ->
                hexString (hexToArrayBuffer hex) = hex)
               /\ forall c, allLowerHex (String c hex) = true ->
                            evenLength (String c hex) = true ->
                            hexString (hexToArrayBuffer (String c hex))
                            = String c hex).
    { induction hex as [| c' hex (IH1 & IH2)].
      - split; [reflexivity |]. intros c _ H. discriminate H.
      - split; [apply IH2 |]. intros c Hlow Heven.
        cbn [allLowerHex] in Hlow.
        apply andb_true_iff in Hlow. destruct Hlow as (Hc & Hlow).
        apply andb_true_iff in Hlow. destruct Hlow as (Hc' & Hlow).
        cbn [evenLength] in Heven. cbn [hexToArrayBuffer].
        unfold hexString in *. cbn [map JS.join fold_right].
        rewrite (hexPair_encode_decode c c' Hc Hc').
        cbn [String.append]. f_equal. f_equal. apply IH1; assumption. }
    intros hex. apply H.
Qed.

(** *** [readUInt32BE] *)

Lemma byte_to_N_injective (a b : byte) : Byte.to_N a = Byte.to_N b -> a = b.
Proof.
  intros H. pose proof (Byte.of_to_N a) as Ha. pose proof (Byte.of_to_N b) as Hb.
  rewrite H in Ha. congruence.
Qed.

(** X3. [readUInt32BE] never returns a negative number or one of more than
    32 bits, whatever the first byte ([>>> 0] undoes the sign that [<< 24]
    may set); a read past the end of the buffer yields 0; and two windows
    of four bytes with the same value are the same bytes. *)
Theorem readUInt32BE_unsigned_injective :
  (forall buffer offset, 0 <= readUInt32BE buffer offset < 2 ^ 32)
  /\ (forall buffer offset,
         (List.length buffer <= offset)%nat -> readUInt32BE buffer offset = 0)
  /\ (forall a b c d a' b' c' d' : byte,
         readUInt32BE [a; b; c; d] 0 = readUInt32BE [a'; b'; c'; d'] 0 ->
         [a; b; c; d] = [a'; b'; c'; d']).
Proof.
  split; [apply readUInt32BE_range |]. split.
  - intros buffer offset Hlen. rewrite readUInt32BE_eq. unfold JS.byteAt.
    rewrite !(proj2 (nth_error_None _ _)) by lia. reflexivity.
  - intros a b c d a' b' c' d' H. rewrite !readUInt32BE_eq in H.
    unfold JS.byteAt in H. cbn [nth_error Nat.add] in H.
    pose proof (Byte.to_N_bounded a). pose proof (Byte.to_N_bounded b).
    pose proof (Byte.to_N_bounded c). pose proof (Byte.to_N_bounded d).
    pose proof (Byte.to_N_bounded a'). pose proof (Byte.to_N_bounded b').
    pose proof (Byte.to_N_bounded c'). pose proof (Byte.to_N_bounded d').
    assert (Ha : Byte.to_N a = Byte.to_N a') by lia.
    assert (Hb : Byte.to_N b = Byte.to_N b') by lia.
    assert (Hc : Byte.to_N c = Byte.to_N c') by lia.
    assert (Hd : Byte.to_N d = Byte.to_N d') by lia.
    apply byte_to_N_injective in Ha, Hb, Hc, Hd. congruence.
Qed.

(** *** The rejection sampler *)

(** X4. The accepted draws are spread evenly over the residues: for a
    modulus [0 < range < 2^32], writing a draw below the limit as
    [q * range + r] pairs the accepted draws one to one with the pairs of a
    quotient [0 <= q < limit / range] and a residue [0 <= r < range], so
    that every residue has exactly [limit / range] accepted draws. *)
Theorem accepted_draws_equidistributed (range : Z) :
  0 < range < 2 ^ 32 ->
  let limit := sampleLimit range in
  (forall v, 0 <= v < limit ->
             0 <= v / range < limit / range
             /\ 0 <= v mod range < range
             /\ v = v / range * range + v mod range)
  /\ (forall q r, 0 <= q < limit / range -> 0 <= r < range ->
                  0 <= q * range + r < limit
                  /\ q * range + r < 2 ^ 32
                  /\ (q * range + r) / range = q
                  /\ (q * range + r) mod range = r).
Proof.
  intros Hr. cbv zeta.
  assert (Heq : sampleLimit range = (2 ^ 32 - 1) / range * range)
    by (apply sampleLimit_eq; lia).
  assert (Hq : sampleLimit range / range = (2 ^ 32 - 1) / range)
    by (rewrite Heq; apply Z.div_mul; lia).
  assert (Hle : sampleLimit range <= 2 ^ 32 - 1)
    by (rewrite Heq; pose proof (Z.mul_div_le (2 ^ 32 - 1) range ltac:(lia)); lia).
  split.
  - intros v Hv.
    pose proof (Z.mod_pos_bound v range ltac:(lia)) as Hmod.
    pose proof (Z.div_mod v range ltac:(lia)) as Hdm.
    split; [| split; [exact Hmod | lia]].
    split; [apply Z.div_pos; lia |].
    rewrite Hq. apply Z.div_lt_upper_bound; [lia |].
    rewrite Heq in Hv. lia.
  - intros q r Hqr Hrr. rewrite Hq in Hqr.
    assert (Hv : 0 <= q * range + r < sampleLimit range) by (rewrite Heq; nia).
    split; [exact Hv |]. split; [lia |].
    split.
    + rewrite Z.add_comm, Z.div_add by lia. rewrite Z.div_small by lia. lia.
    + rewrite Z.add_comm, Z.mod_add by lia. apply Z.mod_small. lia.
Qed.

(** X5. At least half of the draws are accepted: for a modulus
    [0 < range < 2^32] the limit is at least [2^31], and at most [range]
    of the [2^32] draws are rejected. *)
Theorem at_least_half_accepted (range : Z) :
  0 < range < 2 ^ 32 ->
  2 ^ 31 <= sampleLimit range
  /\ 2 ^ 32 - sampleLimit range <= range.
Proof.
  intros Hr.
  assert (Heq : sampleLimit range = (2 ^ 32 - 1) / range * range)
    by (apply sampleLimit_eq; lia).
  pose proof (Z.div_mod (2 ^ 32 - 1) range ltac:(lia)) as Hdm.
  pose proof (Z.mod_pos_bound (2 ^ 32 - 1) range ltac:(lia)) as Hmod.
  assert (Hq : 1 <= (2 ^ 32 - 1) / range)
    by (apply Z.div_le_lower_bound; lia).
  split; [| lia].
  rewrite Heq. change (2 ^ 31) with 2147483648 in *.
  change (2 ^ 32 - 1) with 4294967295 in *. nia.
Qed.


(** *** The selector on ranges and counts at its edges *)

Lemma workingSet_empty_without_limit (serverSeed clientSeed : string)
      (nonce range lower : Z) (n : nat) :
  sampleLimit range <= 0 ->
  workingSet serverSeed clientSeed nonce range lower n = [].
Proof.
  intros Hlim. induction n as [| n IH]; [reflexivity |].
  rewrite workingSet_S, IH.
  pose proof (streamWord_range serverSeed clientSeed nonce n).
  rewrite (proj2 (Z.ltb_ge _ _)) by lia. reflexivity.
Qed.

(** X6. On a range of [2^32] integers or more the limit of the sampler is
    0 and no draw is ever accepted: a call for fewer numbers than the range
    holds does not return and throws none of its errors, whatever the fuel
    (the buffer only grows); so does [getNumberFromRange]. *)
Theorem wide_range_never_returns (fuel : nat) (count lower upper : Z)
        (serverSeed : string) (nonce : Z) (clientSeed : string) :
  2 ^ 32 <= upper - lower + 1 ->
  0 < count < upper - lower + 1 ->
  sampleLimit (upper - lower + 1) = 0
  /\ getUniqueNumbersFromRange fuel count lower upper serverSeed nonce clientSeed
     = OutOfFuel
  /\ getNumberFromRange fuel lower upper serverSeed nonce clientSeed = OutOfFuel.
Proof.
  intros Hwide Hcount.
  assert (Hlim : sampleLimit (upper - lower + 1) = 0).
  { unfold sampleLimit, MAX_UINT32. change (2 ^ 32) with 4294967296 in Hwide.
    rewrite Z.rem_small by lia. lia. }
  assert (Hstuck : forall c, 0 < c < upper - lower + 1 ->
             getUniqueNumbersFromRange fuel c lower upper serverSeed nonce
                                       clientSeed = OutOfFuel).
  { intros c Hc.
    pose proof (getUniqueNumbersFromRange_outcome fuel c lower upper serverSeed
                  nonce clientSeed ltac:(lia) ltac:(lia) ltac:(lia)) as Hout.
    cbv zeta in Hout.
    destruct (getUniqueNumbersFromRange fuel c lower upper serverSeed nonce
                                        clientSeed) as [numbers | e |];
      [| contradiction | reflexivity].
    destruct Hout as (m & _ & Hsize & _). exfalso.
    rewrite workingSet_empty_without_limit in Hsize by lia.
    unfold JS.Set_size in Hsize. cbn [List.length Z.of_nat] in Hsize.
    destruct (upper - lower + 1 <? 2 * c); lia. }
  split; [exact Hlim |]. split; [apply Hstuck; exact Hcount |].
  unfold getNumberFromRange. rewrite Hstuck; [reflexivity |].
  change (2 ^ 32) with 4294967296 in Hwide. lia.
Qed.

Lemma workingSet_extends (serverSeed clientSeed : string) (nonce range lower : Z)
      (n m : nat) :
  (n <= m)%nat ->
  exists more,
    workingSet serverSeed clientSeed nonce range lower m
    = workingSet serverSeed clientSeed nonce range lower n ++ more.
Proof.
  induction 1 as [| m Hle (more & IH)].
  - exists []. rewrite app_nil_r. reflexivity.
  - rewrite workingSet_S, IH.
    destruct (_ <? sampleLimit range).
    + unfold JS.Set_add. destruct (JS.Set_has _ _).
      * exists more. reflexivity.
      * eexists. rewrite <- app_assoc. reflexivity.
    + exists more. reflexivity.
Qed.

(** X7. Asking for more numbers only appends: when two counts
    [0 < fewer <= more] both take the direct path ([2 * more <= totalRange])
    and the call for [more] returns, the call for [fewer] returns, with the
    same fuel, the first [fewer] elements of that array. *)
Theorem direct_results_are_prefixes (fuel : nat) (fewer more lower upper : Z)
        (serverSeed : string) (nonce : Z) (clientSeed : string)
        (numbers : list Z) :
  0 < fewer <= more -> 2 * more <= upper - lower + 1 ->
  getUniqueNumbersFromRange fuel more lower upper serverSeed nonce clientSeed
  = Returned numbers ->
  getUniqueNumbersFromRange fuel fewer lower upper serverSeed nonce clientSeed
  = Returned (firstn (Z.to_nat fewer) numbers).
Proof.
  intros Hc Hhalf Hmore.
  pose proof (getUniqueNumbersFromRange_outcome fuel more lower upper serverSeed
                nonce clientSeed ltac:(lia) ltac:(lia) ltac:(lia)) as H2.
  pose proof (getUniqueNumbersFromRange_outcome fuel fewer lower upper serverSeed
                nonce clientSeed ltac:(lia) ltac:(lia) ltac:(lia)) as H1.
  cbv zeta in H1, H2. rewrite Hmore in H2.
  rewrite (proj2 (Z.ltb_ge (upper - lower + 1) (2 * fewer))) in H1 by lia.
  rewrite (proj2 (Z.ltb_ge (upper - lower + 1) (2 * more))) in H2 by lia.
  destruct H2 as (m2 & Hm2 & Hs2 & _ & ->).
  unfold JS.Set_size in *.
  destruct (getUniqueNumbersFromRange fuel fewer lower upper serverSeed nonce
                                      clientSeed) as [few | e |].
  - destruct H1 as (m1 & _ & Hs1 & Hmin1 & ->). f_equal.
    assert (Hle : (m1 <= m2)%nat).
    { destruct (Nat.le_gt_cases m1 m2) as [Hle | Hgt]; [exact Hle |].
      specialize (Hmin1 m2 Hgt). lia. }
    destruct (workingSet_extends serverSeed clientSeed nonce (upper - lower + 1)
                lower m1 m2 Hle) as (ext & ->).
    replace (Z.to_nat fewer)
      with (List.length (workingSet serverSeed clientSeed nonce
                                    (upper - lower + 1) lower m1) + 0)%nat by lia.
    rewrite firstn_app_2. cbn [firstn]. rewrite app_nil_r. reflexivity.
  - contradiction.
  - specialize (H1 m2 Hm2). lia.
Qed.

(** X8. [getNumberFromRange] passes on the error of the bounds and throws
    nothing else: it throws exactly when [upper < lower], the error being
    'upper must be >= lower'; its own 'Failed to generate any numbers' and
    the two errors about the count are never thrown, for any input. *)
Theorem getNumberFromRange_errors (fuel : nat) (lower upper : Z)
        (serverSeed : string) (nonce : Z) (clientSeed : string) :
  let call := getNumberFromRange fuel lower upper serverSeed nonce clientSeed in
  (upper < lower -> call = Thrown UpperBelowLower)
  /\ (forall e, call = Thrown e -> e = UpperBelowLower /\ upper < lower)
  /\ (forall x, call = Returned x -> lower <= x <= upper).
Proof.
  cbv zeta. unfold getNumberFromRange.
  destruct (Z_lt_ge_dec upper lower) as [Hlt | Hge].
  - destruct (selectorRun_thrown fuel 1 lower upper serverSeed nonce clientSeed)
      as (_ & T2 & _).
    unfold getUniqueNumbersFromRange. rewrite T2 by lia. cbn [bind].
    split; [reflexivity |]. split.
    + intros e' He. injection He as <-. split; [reflexivity | exact Hlt].
    + intros x Hx. discriminate Hx.
  - pose proof (getUniqueNumbersFromRange_outcome fuel 1 lower upper serverSeed
                  nonce clientSeed ltac:(lia) ltac:(lia) ltac:(lia)) as Hout.
    pose proof (getUniqueNumbersFromRange_returned fuel 1 lower upper serverSeed
                  nonce clientSeed) as Hret.
    cbv zeta in Hout.
    destruct (getUniqueNumbersFromRange fuel 1 lower upper serverSeed nonce
                                        clientSeed) as [numbers | e |];
      cbn [bind]; [| contradiction |].
    + destruct (Hret numbers ltac:(lia) ltac:(lia) ltac:(lia) eq_refl)
        as (Hlen & _ & Hall).
      destruct numbers as [| x [| y rest]]; cbn in Hlen; try lia.
      split; [lia |]. split; [intros e He; discriminate He |].
      intros x' Hx'. injection Hx' as <-. inversion Hall. assumption.
    + split; [lia |]. split; [intros e He; discriminate He |].
      intros x Hx. discriminate Hx.
Qed.


(** *** The commitment and its salt *)

(** X9. Whatever the seed, both variants of [getHashBySeed] return 64
    characters, all lowercase hexadecimal digits. *)
Theorem commitment_is_64_lowercase_hex (seed : string) :
  String.length (getHashBySeed seed) = 64%nat
  /\ allLowerHex (getHashBySeed seed) = true
  /\ String.length (getHashBySeed_embedded seed) = 64%nat
  /\ allLowerHex (getHashBySeed_embedded seed) = true.
Proof.
  destruct (getHashBySeed_eq seed) as (-> & ->).
  repeat split.
  - rewrite (proj2 (hexString_lowercase _)), digest_length. reflexivity.
  - apply hexString_lowercase.
  - rewrite (proj2 (hexString_lowercase _)), digest_length. reflexivity.
  - apply hexString_lowercase.
Qed.

Lemma hasLineTerminator_append (a b : string) :
  hasLineTerminator (a ++ b) = hasLineTerminator a || hasLineTerminator b.
Proof.
  induction a as [| c a IH]; [reflexivity |].
  cbn [String.append hasLineTerminator]. rewrite IH. apply orb_assoc.
Qed.

Lemma append_length (a b : string) :
  String.length (a ++ b) = (String.length a + String.length b)%nat.
Proof.
  induction a as [| c a IH]; [reflexivity |].
  cbn [String.append String.length]. rewrite IH. reflexivity.
Qed.

Lemma join_length (parts : list string) :
  String.length (JS.join parts) = list_sum (map String.length parts).
Proof.
  induction parts as [| p parts IH]; [reflexivity |].
  cbn [JS.join fold_right map list_sum].
  fold (JS.join parts). rewrite append_length, IH. reflexivity.
Qed.

Lemma join_no_line_terminator (parts : list string) :
  Forall (fun p => hasLineTerminator p = false) parts ->
  hasLineTerminator (JS.join parts) = false.
Proof.
  induction 1 as [| p parts Hp Hall IH]; [reflexivity |].
  cbn [JS.join fold_right]. fold (JS.join parts).
  rewrite hasLineTerminator_append, Hp, IH. reflexivity.
Qed.

Lemma list_sum_cons (x : nat) (l : list nat) :
  list_sum (x :: l) = (x + list_sum l)%nat.
Proof. reflexivity. Qed.

Lemma list_sum_rev (l : list nat) : list_sum (rev l) = list_sum l.
Proof.
  induction l as [| x l IH]; [reflexivity |].
  cbn [rev]. rewrite list_sum_app, IH. unfold list_sum. cbn [fold_right]. lia.
Qed.

Lemma matchAll_measure (s : string) :
  (list_sum (map String.length (matchAll s)) = matchableLength s
   /\ Forall (fun p => hasLineTerminator p = false) (matchAll s))
  /\ forall c,
      list_sum (map String.length (matchAll (String c s)))
      = matchableLength (String c s)
      /\ Forall (fun p => hasLineTerminator p = false) (matchAll (String c s)).
Proof.
  induction s as [| c' s ((IH1 & IH1') & IH2)].
  - split; [split; [reflexivity | constructor] |].
    intros c. cbn [matchAll matchableLength].
    destruct (isLineTerminator c) eqn:E; [split; [reflexivity | constructor] |].
    split; [reflexivity |]. constructor; [| constructor].
    cbn [hasLineTerminator]. rewrite E. reflexivity.
  - split; [apply IH2 |]. intros c. cbn [matchAll matchableLength].
    destruct (isLineTerminator c) eqn:E; [apply IH2 |].
    destruct (isLineTerminator c') eqn:E'.
    + split.
      * cbn [map]. rewrite list_sum_cons, IH1. reflexivity.
      * constructor; [| exact IH1'].
        cbn [hasLineTerminator]. rewrite E. reflexivity.
    + split.
      * cbn [map]. rewrite list_sum_cons, IH1. reflexivity.
      * constructor; [| exact IH1'].
        cbn [hasLineTerminator]. rewrite E, E'. reflexivity.
Qed.

(** X10. The salt passes over line terminators: a seed that holds nothing
    else (the empty seed among them) is its own salt; any other seed has a
    salt free of line terminators, as long as the seed less its line
    terminators. *)
Theorem salt_passes_over_line_terminators (seed : string) :
  (matchableLength seed = 0%nat -> saltOf seed = seed)
  /\ ((0 < matchableLength seed)%nat ->
      String.length (saltOf seed) = matchableLength seed
      /\ hasLineTerminator (saltOf seed) = false).
Proof.
  destruct (matchAll_measure seed) as ((Hsum & Hfree) & _).
  unfold saltOf, String_match.
  destruct (matchAll seed) as [| p ps] eqn:E.
  - cbn in Hsum. split; [reflexivity |]. intros Hpos. lia.
  - split.
    + intros Hzero. rewrite Hzero in Hsum. cbn [map list_sum] in Hsum.
      inversion Hfree as [| ? ? Hp _]; subst.
      destruct p; [| cbn in Hsum; lia].
      exfalso.
      assert (Hne : forall s, ~ In EmptyString (matchAll s)
                              /\ forall c, ~ In EmptyString (matchAll (String c s))).
      { induction s as [| c' s (IHa & IHb)].
        - split; [intros [] |]. intros c. cbn [matchAll].
          destruct (isLineTerminator c); [intros [] |].
          intros [H | []]. discriminate H.
        - split; [apply IHb |]. intros c. cbn [matchAll].
          destruct (isLineTerminator c); [apply IHb |].
          destruct (isLineTerminator c'); intros [H | H];
            try discriminate H; exact (IHa H). }
      apply (proj1 (Hne seed)). rewrite E. left. reflexivity.
    + intros _. split.
      * rewrite join_length, map_rev, list_sum_rev. exact Hsum.
      * apply join_no_line_terminator. apply Forall_rev. exact Hfree.
Qed.

(** *** Blocks shared between rounds *)

(** X11. The messages do not keep the client seed, the nonce and the block
    index apart: block 0 of the round with client seed [clientSeed:nonce]
    and nonce [i >= 1] is block [i] of the round with client seed
    [clientSeed] and that nonce, under the same server seed; the first
    eight draws of the former are the draws [8i .. 8i+7] of the latter. *)
Theorem stream_blocks_alias (serverSeed clientSeed : string) (nonce : Z) (i : nat) :
  (1 <= i)%nat ->
  let otherSeed := (clientSeed ++ ":" ++ JS.Number_toString nonce)%string in
  blockMessage otherSeed (Z.of_nat i) 0 = blockMessage clientSeed nonce i
  /\ streamBlock serverSeed otherSeed (Z.of_nat i) 0
     = streamBlock serverSeed clientSeed nonce i
  /\ forall j, (j < 8)%nat ->
               streamWord serverSeed otherSeed (Z.of_nat i) j
               = streamWord serverSeed clientSeed nonce (8 * i + j).
Proof.
  intros Hi. cbv zeta.
  assert (Hmsg : blockMessage (clientSeed ++ ":" ++ JS.Number_toString nonce)
                              (Z.of_nat i) 0
                 = blockMessage clientSeed nonce i).
  { destruct i as [| i]; [lia |]. apply (blockMessage_S clientSeed nonce i). }
  assert (Hblock : streamBlock serverSeed
                     (clientSeed ++ ":" ++ JS.Number_toString nonce) (Z.of_nat i) 0
                   = streamBlock serverSeed clientSeed nonce i)
    by (unfold streamBlock; rewrite Hmsg; reflexivity).
  split; [exact Hmsg |]. split; [exact Hblock |].
  intros j Hj. unfold streamWord.
  assert (Hbyte : forall k, (k < 4)%nat ->
             streamByte serverSeed (clientSeed ++ ":" ++ JS.Number_toString nonce)
                        (Z.of_nat i) (4 * j + k)
             = streamByte serverSeed clientSeed nonce (4 * (8 * i + j) + k)).
  { intros k Hk. unfold streamByte.
    rewrite (Nat.div_small (4 * j + k) 32), (Nat.mod_small (4 * j + k) 32) by lia.
    replace ((4 * (8 * i + j) + k) / 32)%nat with i
      by (apply Nat.div_unique with (r := (4 * j + k)%nat); lia).
    replace ((4 * (8 * i + j) + k) mod 32)%nat with (4 * j + k)%nat
      by (apply Nat.mod_unique with (q := i); lia).
    rewrite Hblock. reflexivity. }
  pose proof (Hbyte 0%nat ltac:(lia)) as H0. rewrite !Nat.add_0_r in H0.
  rewrite H0, (Hbyte 1%nat), (Hbyte 2%nat), (Hbyte 3%nat) by lia.
  reflexivity.
Qed.


(** *** Shifting the range *)

Lemma Set_has_shift (d x : Z) (s : JS.NumSet) :
  JS.Set_has (map (Z.add d) s) (d + x) = JS.Set_has s x.
Proof.
  unfold JS.Set_has. induction s as [| y s IH]; [reflexivity |].
  cbn [map existsb]. rewrite IH. f_equal.
  destruct (Z.eqb_spec x y) as [-> | Hne]; [apply Z.eqb_refl |].
  apply Z.eqb_neq. lia.
Qed.

Lemma loopBody_shifted (serverSeed baseMsg : string) (range limit lower d : Z)
      (st st' : LoopState) :
  shifted d st st' ->
  shifted d (loopBody serverSeed baseMsg range limit lower st)
            (loopBody serverSeed baseMsg range limit (d + lower) st').
Proof.
  intros (Hd & Hc & Hi & Hl & Hr). unfold shifted, loopBody.
  rewrite Hd, Hc, Hi, Hl, Hr.
  assert (Hadd : forall s n,
             (if negb (JS.Set_has (map (Z.add d) s) (Z.rem n range + (d + lower)))
              then map (Z.add d) s ++ [Z.rem n range + (d + lower)]
              else map (Z.add d) s)
             = map (Z.add d)
                   (if negb (JS.Set_has s (Z.rem n range + lower))
                    then s ++ [Z.rem n range + lower] else s)).
  { intros s n.
    replace (Z.rem n range + (d + lower)) with (d + (Z.rem n range + lower))
      by lia.
    rewrite Set_has_shift. destruct (JS.Set_has s _); cbn [negb];
      [reflexivity | rewrite map_app; reflexivity]. }
  destruct (List.length (digest st) <? cursor st + 4)%nat;
    cbn [digest results cursor digestIndex hmacCalls];
    rewrite ?Hd, ?Hc, ?Hi, ?Hl, ?Hr;
    (split; [reflexivity |]); (split; [reflexivity |]);
    (split; [reflexivity |]); (split; [reflexivity |]);
    (destruct (_ <? limit); [apply Hadd | reflexivity]).
Qed.

Lemma whileLoop_shifted (serverSeed baseMsg : string)
      (range limit lower targetCount d : Z) (fuel : nat) :
  forall st st',
    shifted d st st' ->
    match whileLoop serverSeed baseMsg range limit lower targetCount fuel st,
          whileLoop serverSeed baseMsg range limit (d + lower) targetCount fuel st'
    with
    | Returned final, Returned final' => shifted d final final'
    | OutOfFuel, OutOfFuel => True
    | _, _ => False
    end.
Proof.
  induction fuel as [| fuel IH]; intros st st' Hs; cbn [whileLoop];
    assert (Hsize : JS.Set_size (results st') = JS.Set_size (results st))
      by (destruct Hs as (_ & _ & _ & _ & ->); unfold JS.Set_size;
          rewrite length_map; reflexivity);
    rewrite Hsize; destruct (JS.Set_size (results st) <? targetCount);
    try exact I; try exact Hs.
  apply IH. apply loopBody_shifted. exact Hs.
Qed.

Lemma inversionLoop_shifted (d upper : Z) (excluded : JS.NumSet) (steps : nat) :
  forall i acc,
    inversionLoop steps (map (Z.add d) excluded) (d + i) (d + upper)
                  (map (Z.add d) acc)
    = map (Z.add d) (inversionLoop steps excluded i upper acc).
Proof.
  induction steps as [| steps IH]; intros i acc; cbn [inversionLoop];
    [reflexivity |].
  replace (d + i <=? d + upper) with (i <=? upper)
    by (destruct (Z.leb_spec i upper), (Z.leb_spec (d + i) (d + upper));
        try reflexivity; lia).
  destruct (i <=? upper); [| reflexivity].
  rewrite Set_has_shift.
  replace (d + i + 1) with (d + (i + 1)) by lia.
  destruct (JS.Set_has excluded i); cbn [negb]; [apply IH |].
  rewrite <- IH, map_app. reflexivity.
Qed.

(** X12. Shifting both bounds by [d] shifts every returned number by [d]
    and changes nothing else: the same errors are thrown, the call returns
    with the same fuel, and the array is the array of the unshifted call
    with [d] added to each element, in the same order. *)
Theorem translation_equivariance (fuel : nat) (count lower upper d : Z)
        (serverSeed : string) (nonce : Z) (clientSeed : string) :
  match getUniqueNumbersFromRange fuel count lower upper
                                  serverSeed nonce clientSeed,
        getUniqueNumbersFromRange fuel count (d + lower) (d + upper)
                                  serverSeed nonce clientSeed
  with
  | Returned numbers, Returned numbers' => numbers' = map (Z.add d) numbers
  | Thrown e, Thrown e' => e' = e
  | OutOfFuel, OutOfFuel => True
  | _, _ => False
  end.
Proof.
  unfold getUniqueNumbersFromRange, selectorRun.
  replace (d + upper - (d + lower) + 1) with (upper - lower + 1) by lia.
  replace (d + upper <? d + lower) with (upper <? lower)
    by (destruct (Z.ltb_spec upper lower), (Z.ltb_spec (d + upper) (d + lower));
        try reflexivity; lia).
  destruct (count <=? 0); [reflexivity |].
  destruct (upper <? lower); [reflexivity |].
  destruct (upper - lower + 1 <? count); [reflexivity |].
  set (targetCount := if upper - lower + 1 <? 2 * count
                      then upper - lower + 1 - count else count).
  pose proof (whileLoop_shifted serverSeed
                (clientSeed ++ ":" ++ JS.Number_toString nonce)
                (upper - lower + 1) (sampleLimit (upper - lower + 1)) lower
                targetCount d fuel
                (initialState serverSeed
                              (clientSeed ++ ":" ++ JS.Number_toString nonce))
                (initialState serverSeed
                              (clientSeed ++ ":" ++ JS.Number_toString nonce)))
    as Hloop.
  specialize (Hloop ltac:(repeat split)).
  destruct (whileLoop _ _ _ _ lower _ fuel _) as [final | e |];
    destruct (whileLoop _ _ _ _ (d + lower) _ fuel _) as [final' | e' |];
    try contradiction; cbn [bind]; try exact I.
  destruct Hloop as (_ & _ & _ & _ & Hres).
  destruct (upper - lower + 1 <? 2 * count).
  - rewrite Hres.
    apply (inversionLoop_shifted d upper (results final)
             (Z.to_nat (upper - lower + 1)) lower []).
  - exact Hres.
Qed.


(** *** The game functions *)

(** What [getNumberFromRange] does, by the order of its bounds. *)
Lemma getNumberFromRange_cases (fuel : nat) (lower upper : Z)
      (serverSeed : string) (nonce : Z) (clientSeed : string) :
  (upper < lower ->
   getNumberFromRange fuel lower upper serverSeed nonce clientSeed
   = Thrown UpperBelowLower)
  /\ (lower <= upper ->
      match getNumberFromRange fuel lower upper serverSeed nonce clientSeed with
      | Returned x => lower <= x <= upper
      | Thrown _ => False
      | OutOfFuel => True
      end)
  /\ (lower = upper ->
      getNumberFromRange fuel lower upper serverSeed nonce clientSeed
      = Returned lower).
Proof.
  unfold getNumberFromRange. split; [| split].
  - intros Hlt.
    destruct (selectorRun_thrown fuel 1 lower upper serverSeed nonce clientSeed)
      as (_ & T2 & _).
    unfold getUniqueNumbersFromRange. rewrite T2 by lia. reflexivity.
  - intros Hle.
    pose proof (getUniqueNumbersFromRange_outcome fuel 1 lower upper serverSeed
                  nonce clientSeed ltac:(lia) ltac:(lia) ltac:(lia)) as Hout.
    pose proof (getUniqueNumbersFromRange_returned fuel 1 lower upper serverSeed
                  nonce clientSeed) as Hret.
    cbv zeta in Hout.
    destruct (getUniqueNumbersFromRange fuel 1 lower upper serverSeed nonce
                                        clientSeed) as [numbers | e |];
      cbn [bind]; [| contradiction | exact I].
    destruct (Hret numbers ltac:(lia) ltac:(lia) ltac:(lia) eq_refl)
      as (Hlen & _ & Hall).
    destruct numbers as [| x [| y rest]]; cbn in Hlen; try lia.
    inversion Hall. assumption.
  - intros <-.
    pose proof (getUniqueNumbersFromRange_outcome fuel 1 lower lower serverSeed
                  nonce clientSeed ltac:(lia) ltac:(lia) ltac:(lia)) as Hout.
    pose proof (getUniqueNumbersFromRange_returned fuel 1 lower lower serverSeed
                  nonce clientSeed) as Hret.
    cbv zeta in Hout.
    replace (lower - lower + 1) with 1 in Hout by lia.
    change (1 <? 2 * 1) with true in Hout. cbv iota in Hout.
    destruct (getUniqueNumbersFromRange fuel 1 lower lower serverSeed nonce
                                        clientSeed) as [numbers | e |];
      cbn [bind]; [| contradiction |].
    + destruct (Hret numbers ltac:(lia) ltac:(lia) ltac:(lia) eq_refl)
        as (Hlen & _ & Hall).
      destruct numbers as [| x [| y rest]]; cbn in Hlen; try lia.
      inversion Hall as [| ? ? Hx _]; subst. f_equal. lia.
    + exfalso. specialize (Hout 0%nat ltac:(lia)).
      unfold JS.Set_size in Hout. cbn in Hout. lia.
Qed.

(** X13. [calculateWheelResult] throws 'upper must be >= lower' when there
    is no sector ([sectorsCount < 1]) and throws nothing otherwise; the
    sector it returns lies in [1, sectorsCount] and is drawn with nonce 0
    and the session id as client seed, the hash is the commitment of the
    server seed; a wheel of one sector returns sector 1 whatever the
    seeds. *)
Theorem wheel_result (fuel : nat) (sessionId serverSeed : string)
        (sectorsCount : Z) :
  let call := calculateWheelResult fuel sessionId serverSeed sectorsCount in
  (sectorsCount < 1 -> call = Thrown UpperBelowLower)
  /\ (1 <= sectorsCount -> forall e, call <> Thrown e)
  /\ (forall r, call = Returned r ->
                1 <= Wheel.winSectorNumber r <= sectorsCount
                /\ Wheel.hash r = getHashBySeed serverSeed
                /\ getNumberFromRange fuel 1 sectorsCount serverSeed 0 sessionId
                   = Returned (Wheel.winSectorNumber r))
  /\ (sectorsCount = 1 ->
      call = Returned (Wheel.mk 1 (getHashBySeed serverSeed))).
Proof.
  cbv zeta. unfold calculateWheelResult.
  destruct (getNumberFromRange_cases fuel 1 sectorsCount serverSeed 0 sessionId)
    as (Hthrow & Hok & Hone).
  split; [| split; [| split]].
  - intros H. rewrite Hthrow by lia. reflexivity.
  - intros H e He. specialize (Hok H).
    destruct (getNumberFromRange fuel 1 sectorsCount serverSeed 0 sessionId);
      cbn [bind] in He; [discriminate He | contradiction | discriminate He].
  - intros r Hr.
    destruct (Z_lt_ge_dec sectorsCount 1) as [Hlt | Hge];
      [rewrite Hthrow in Hr by lia; discriminate Hr |].
    specialize (Hok ltac:(lia)).
    destruct (getNumberFromRange fuel 1 sectorsCount serverSeed 0 sessionId)
      as [x | e |]; cbn [bind] in Hr; [| contradiction | discriminate Hr].
    injection Hr as <-. cbn. repeat split; lia.
  - intros ->. rewrite Hone by reflexivity. reflexivity.
Qed.

(** X14. [calculateCasesResult] draws from the [totalRange + 1] integers
    [0 .. totalRange], the bound included, [totalRange] being 2000 when the
    argument is left out: it throws 'upper must be >= lower' for a negative
    [totalRange] and nothing otherwise, and [totalRange = 0] returns 0. *)
Theorem cases_result (fuel : nat) (clientSeed serverSeed : string) (nonce : Z)
        (totalRange : option Z) :
  let upper := match totalRange with Some t => t | None => 2000 end in
  let call := calculateCasesResult fuel clientSeed serverSeed nonce totalRange in
  (upper < 0 -> call = Thrown UpperBelowLower)
  /\ (0 <= upper -> forall e, call <> Thrown e)
  /\ (forall r, call = Returned r ->
                0 <= Cases.result_ r <= upper
                /\ Cases.hash r = getHashBySeed serverSeed)
  /\ (upper = 0 -> call = Returned (Cases.mk 0 (getHashBySeed serverSeed))).
Proof.
  cbv zeta. unfold calculateCasesResult.
  set (upper := match totalRange with Some t => t | None => 2000 end).
  destruct (getNumberFromRange_cases fuel 0 upper serverSeed nonce clientSeed)
    as (Hthrow & Hok & Hone).
  split; [| split; [| split]].
  - intros H. rewrite Hthrow by lia. reflexivity.
  - intros H e He. specialize (Hok H).
    destruct (getNumberFromRange fuel 0 upper serverSeed nonce clientSeed);
      cbn [bind] in He; [discriminate He | contradiction | discriminate He].
  - intros r Hr.
    destruct (Z_lt_ge_dec upper 0) as [Hlt | Hge];
      [rewrite Hthrow in Hr by lia; discriminate Hr |].
    specialize (Hok ltac:(lia)).
    destruct (getNumberFromRange fuel 0 upper serverSeed nonce clientSeed)
      as [x | e |]; cbn [bind] in Hr; [| contradiction | discriminate Hr].
    injection Hr as <-. cbn. split; [lia | reflexivity].
  - intros H. rewrite Hone by lia. reflexivity.
Qed.

(** X15. The [calculateDiceResult] of the code editor never throws; the
    number it returns is an integer of [1, 100], and the hash is the
    embedded variant of the commitment. *)
Theorem embedded_dice_result (fuel : nat) (clientSeed serverSeed : string)
        (nonce : Z) :
  let call := calculateDiceResult_embedded fuel clientSeed serverSeed nonce in
  (forall e, call <> Thrown e)
  /\ (forall r, call = Returned r ->
                1 <= Dice.winNumber r <= 100
                /\ Dice.hash r = getHashBySeed_embedded serverSeed
                /\ getNumberFromRange fuel 1 100 serverSeed nonce clientSeed
                   = Returned (Dice.winNumber r)).
Proof.
  cbv zeta. unfold calculateDiceResult_embedded.
  destruct (getNumberFromRange_cases fuel 1 100 serverSeed nonce clientSeed)
    as (_ & Hok & _).
  specialize (Hok ltac:(lia)).
  destruct (getNumberFromRange fuel 1 100 serverSeed nonce clientSeed)
    as [x | e |]; cbn [bind]; [| contradiction |].
  - split; [intros e He; discriminate He |].
    intros r Hr. injection Hr as <-. cbn. repeat split; lia.
  - split; [intros e He; discriminate He | intros r Hr; discriminate Hr].
Qed.

(** The call for as many numbers as the range holds. *)
Lemma getUniqueNumbersFromRange_all (fuel : nat) (lower upper : Z)
      (serverSeed : string) (nonce : Z) (clientSeed : string) :
  lower <= upper ->
  getUniqueNumbersFromRange fuel (upper - lower + 1) lower upper
                            serverSeed nonce clientSeed
  = Returned (interval lower upper).
Proof.
  intros Hb.
  pose proof (getUniqueNumbersFromRange_outcome fuel (upper - lower + 1) lower
                upper serverSeed nonce clientSeed ltac:(lia) Hb ltac:(lia))
    as Hout.
  cbv zeta in Hout.
  rewrite (proj2 (Z.ltb_lt (upper - lower + 1) (2 * (upper - lower + 1))))
    in Hout by lia.
  rewrite Z.sub_diag in Hout.
  destruct (getUniqueNumbersFromRange fuel (upper - lower + 1) lower upper
                                      serverSeed nonce clientSeed)
    as [numbers | e |]; [| contradiction |].
  - destruct Hout as (m & _ & Hsize & _ & ->). f_equal.
    unfold JS.Set_size in Hsize.
    destruct (workingSet serverSeed clientSeed nonce (upper - lower + 1) lower m);
      [| cbn in Hsize; lia].
    apply forallb_filter_id. apply forallb_forall. reflexivity.
  - exfalso. specialize (Hout 0%nat ltac:(lia)).
    unfold JS.Set_size in Hout. cbn in Hout. lia.
Qed.



(** *** The validation of the forms *)

Lemma trimStart_empty (s : string) :
  JS.trimStart s = EmptyString <-> allWhiteSpace s = true.
Proof.
  induction s as [| c s IH]; [split; reflexivity |].
  cbn [JS.trimStart allWhiteSpace].
  destruct (JS.isWhiteSpace c); cbn [andb]; [exact IH |].
  split; intros H; discriminate H.
Qed.

Lemma trimStart_head (s : string) (c : ascii) (rest : string) :
  JS.trimStart s = String c rest -> JS.isWhiteSpace c = false.
Proof.
  induction s as [| c' s IH]; cbn [JS.trimStart]; [intros H; discriminate H |].
  destruct (JS.isWhiteSpace c') eqn:E; [exact IH |].
  intros H. injection H as <- _. exact E.
Qed.

Lemma trimEnd_keeps_head (c : ascii) (rest : string) :
  JS.isWhiteSpace c = false -> JS.trimEnd (String c rest) <> EmptyString.
Proof.
  intros Hc. cbn [JS.trimEnd].
  destruct (JS.trimEnd rest); [rewrite Hc |]; discriminate.
Qed.

(** A field counts as empty when it holds white space only. *)
Lemma isBlank_allWhiteSpace (s : string) : isBlank s = allWhiteSpace s.
Proof.
  unfold isBlank, JS.trim. destruct s as [| c s]; [reflexivity |].
  destruct (JS.trimStart (String c s)) as [| c' rest] eqn:E.
  - apply trimStart_empty in E. rewrite E. reflexivity.
  - assert (Hnot : allWhiteSpace (String c s) = false).
    { destruct (allWhiteSpace (String c s)) eqn:Hall; [| reflexivity].
      apply trimStart_empty in Hall. congruence. }
    rewrite Hnot. apply String.eqb_neq.
    apply trimEnd_keeps_head. exact (trimStart_head _ _ _ E).
Qed.

Lemma validateInputs_true (strings : list string) (numbers : list JS.Int)
      (alert : option Alert) :
  validateInputs strings numbers = (true, alert) ->
  alert = None
  /\ Forall (fun s => allWhiteSpace s = false) strings
  /\ Forall (fun num => exists z, num = Some z /\ 0 <= z) numbers.
Proof.
  unfold validateInputs.
  destruct (existsb isBlank strings) eqn:Es; [intros H; discriminate H |].
  destruct (existsb JS.isNaN_or_negative numbers) eqn:En;
    [intros H; discriminate H |].
  intros H. injection H as <-. split; [reflexivity |]. split.
  - apply Forall_forall. intros s Hs.
    rewrite <- isBlank_allWhiteSpace.
    destruct (isBlank s) eqn:E; [| reflexivity].
    assert (existsb isBlank strings = true)
      by (apply existsb_exists; exists s; split; assumption).
    congruence.
  - apply Forall_forall. intros num Hnum.
    destruct num as [z |].
    + exists z. split; [reflexivity |].
      destruct (Z_lt_ge_dec z 0) as [Hneg | Hok]; [| lia].
      assert (existsb JS.isNaN_or_negative numbers = true).
      { apply existsb_exists. exists (Some z). split; [exact Hnum |].
        cbn. apply Z.ltb_lt. exact Hneg. }
      congruence.
    + assert (existsb JS.isNaN_or_negative numbers = true)
        by (apply existsb_exists; exists None; split; [exact Hnum | reflexivity]).
      congruence.
Qed.



(** *** The submit handlers *)

Lemma validateInputs_two_fields (a b : string) (numbers : list JS.Int) :
  allWhiteSpace a = false -> allWhiteSpace b = false ->
  Forall (fun num => exists z, num = Some z /\ 0 <= z) numbers ->
  validateInputs [a; b] numbers = (true, None).
Proof.
  intros Ha Hb Hn. unfold validateInputs. cbn [existsb].
  rewrite !isBlank_allWhiteSpace, Ha, Hb. cbn [orb].
  assert (Hno : existsb JS.isNaN_or_negative numbers = false).
  { induction Hn as [| num numbers (z & -> & Hz) _ IH]; [reflexivity |].
    cbn [existsb JS.isNaN_or_negative]. rewrite IH.
    rewrite (proj2 (Z.ltb_ge z 0)) by lia. reflexivity. }
  rewrite Hno. reflexivity.
Qed.




End Engine.

(** ** The engine on HMAC-SHA256 *)

(** The hash primitive agrees with the published test vectors: FIPS 180-4
    ("" and "abc") and RFC 4231, test case 2. *)
Example sha256_empty :
  hexString (SHA256.sha256 [])
  = "e3b0c44298fc1c149afbf4c8996fb92427ae41e4649b934ca495991b7852b855"%string.
Proof. vm_compute. reflexivity. Qed.

Example sha256_abc :
  hexString (SHA256.sha256 (JS.TextEncoder_encode "abc"))
  = "ba7816bf8f01cfea414140de5dae2223b00361a396177a9cb410ff61f20015ad"%string.
Proof. vm_compute. reflexivity. Qed.

Example hmac_sha256_rfc4231_case2 :
  hexString (HMAC.hmac_sha256 (JS.TextEncoder_encode "Jefe")
                              (JS.TextEncoder_encode "what do ya want for nothing?"))
  = "5bdcc146bf60754e6a042426089575c75a003f089d2739839dec58b964ec3843"%string.
Proof. vm_compute. reflexivity. Qed.

Lemma sha256_length (msg : list byte) : List.length (SHA256.sha256 msg) = 32%nat.
Proof.
  unfold SHA256.sha256.
  generalize (SHA256.blocks (List.length (SHA256.pad msg) / 64) SHA256.H0
                            (SHA256.pad msg)).
  intros h. reflexivity.
Qed.

Lemma hmac_sha256_length (key data : list byte) :
  List.length (HMAC.hmac_sha256 key data) = 32%nat.
Proof. unfold HMAC.hmac_sha256. apply sha256_length. Qed.

(** *** C1 *)

Lemma sampler_limit_and_acceptance_witness :
  0 < 25 < 2 ^ 32
  /\ sampleLimit 25 = (2 ^ 32 - 1) / 25 * 25
  /\ (25 | sampleLimit 25).
Proof.
  split; [lia |].
  pose proof (sampler_limit_and_acceptance HMAC.hmac_sha256 true 25 ltac:(lia))
    as (Heq & Hdiv & _).
  split; [exact Heq | exact Hdiv].
Defined.

(** C1 as it is written fails at [range = 2]: the limit of the code is
    [2^32 - 2], not [floor(2^32 / 2) * 2 = 2^32], and the draw
    [0xfffffffe], which is below [2^32], is rejected. *)
Lemma sampler_limit_counterexample :
  0 < 2 < 2 ^ 32
  /\ sampleLimit 2 = 2 ^ 32 - 2
  /\ sampleLimit 2 <> 2 ^ 32 / 2 * 2
  /\ let st := mkLoopState ([xff; xff; xff; xfe] ++ repeat x00 28) [] 0 0 [] in
     let st' := loopBody HMAC.hmac_sha256 true "" "" 2 (sampleLimit 2) 0 st in
     readUInt32BE (digest st') (cursor st) = 4294967294
     /\ 4294967294 < 2 ^ 32 / 2 * 2
     /\ results st' = []
     /\ cursor st' = 4%nat.
Proof.
  split; [lia |]. split; [reflexivity |].
  split; [intros H; vm_compute in H; discriminate H |].
  vm_compute. repeat split.
Qed.

(** *** C2, C6 - C10 on the seeds ["abc"], ["x"] and nonce 1 *)

Lemma unique_numbers_in_range_witness :
  0 < 3 /\ 1 <= 25 /\ 3 <= 25 - 1 + 1
  /\ getUniqueNumbersFromRange HMAC.hmac_sha256 true 100 3 1 25 "abc" 1 "x"
     = Returned [1; 11; 2]
  /\ Z.of_nat (List.length [1; 11; 2]) = 3
  /\ NoDup [1; 11; 2]
  /\ Forall (fun x => 1 <= x <= 25) [1; 11; 2].
Proof.
  assert (Hrun : getUniqueNumbersFromRange HMAC.hmac_sha256 true 100 3 1 25
                                           "abc" 1 "x" = Returned [1; 11; 2])
    by (vm_compute; reflexivity).
  split; [lia |]. split; [lia |]. split; [lia |]. split; [exact Hrun |].
  exact (proj1 (unique_numbers_in_range HMAC.hmac_sha256 true hmac_sha256_length
                  100 3 1 25 "abc" 1 "x" ltac:(lia) ltac:(lia) ltac:(lia))
               [1; 11; 2] Hrun).
Defined.


Lemma inversion_equivalence_witness :
  1 <= 25 /\ 25 - 1 + 1 < 2 * 20 /\ 20 < 25 - 1 + 1
  /\ forall x,
      In x [4; 5; 6; 7; 8; 9; 10; 12; 13; 14; 15; 16; 17; 18; 20; 21; 22; 23; 24; 25]
      <-> (1 <= x <= 25 /\ ~ In x [1; 11; 2; 3; 19]).
Proof.
  assert (Hmost : getUniqueNumbersFromRange HMAC.hmac_sha256 true 100 20 1 25
                                            "abc" 1 "x"
                  = Returned [4; 5; 6; 7; 8; 9; 10; 12; 13; 14; 15; 16; 17; 18;
                              20; 21; 22; 23; 24; 25])
    by (vm_compute; reflexivity).
  assert (Hfew : getUniqueNumbersFromRange HMAC.hmac_sha256 true 100
                                           (25 - 1 + 1 - 20) 1 25 "abc" 1 "x"
                 = Returned [1; 11; 2; 3; 19])
    by (vm_compute; reflexivity).
  pose proof (inversion_equivalence HMAC.hmac_sha256 true hmac_sha256_length
                100 20 1 25 "abc" 1 "x" ltac:(lia) ltac:(lia) ltac:(lia)) as H.
  rewrite Hmost, Hfew in H.
  split; [lia |]. split; [lia |]. split; [lia |]. exact H.
Defined.



Lemma output_order_witness :
  0 < 3 /\ 1 <= 25 /\ 3 <= 25 - 1 + 1
  /\ getUniqueNumbersFromRange HMAC.hmac_sha256 true 100 3 1 25 "abc" 1 "x"
     = Returned [1; 11; 2]
  /\ exists m, (m <= 100)%nat
               /\ [1; 11; 2]
                  = firstOccurrences
                      (acceptedValues (25 - 1 + 1) 1
                         (draws HMAC.hmac_sha256 "abc" "x" 1 m)).
Proof.
  assert (Hrun : getUniqueNumbersFromRange HMAC.hmac_sha256 true 100 3 1 25
                                           "abc" 1 "x" = Returned [1; 11; 2])
    by (vm_compute; reflexivity).
  split; [lia |]. split; [lia |]. split; [lia |]. split; [exact Hrun |].
  destruct (proj2 (output_order HMAC.hmac_sha256 true hmac_sha256_length
                     100 3 1 25 "abc" 1 "x" [1; 11; 2]
                     ltac:(lia) ltac:(lia) ltac:(lia) Hrun) ltac:(lia))
    as (m & Hm & Hnum & _).
  exists m. split; [exact Hm | exact Hnum].
Defined.

Lemma failure_branch_unreachable_witness :
  0 <= 10000
  /\ (forall e, getNumberFromRange HMAC.hmac_sha256 true 100 0 10000 "abc" 1 "x"
                <> Thrown e)
  /\ getNumberFromRange HMAC.hmac_sha256 true 100 0 10000 "abc" 1 "x"
     = Returned 6211.
Proof.
  split; [lia |].
  split; [| vm_compute; reflexivity].
  exact (proj1 (failure_branch_unreachable HMAC.hmac_sha256 true
                  hmac_sha256_length 100 0 10000 "abc" 1 "x" ltac:(lia))).
Defined.

(** C10 as it is written fails on the bounds [[0, 2^32 - 1]]: the limit
    of the sampler is 0, no draw is accepted, and neither the inner call
    for one number nor [getNumberFromRange] returns, whatever the fuel. *)
Lemma failure_branch_unreachable_counterexample :
  0 <= 4294967295
  /\ sampleLimit (4294967295 - 0 + 1) = 0
  /\ forall fuel,
       getUniqueNumbersFromRange HMAC.hmac_sha256 true fuel 1 0 4294967295
                                 "abc" 1 "x"
       = OutOfFuel
       /\ getNumberFromRange HMAC.hmac_sha256 true fuel 0 4294967295 "abc" 1 "x"
          = OutOfFuel.
Proof.
  split; [lia |]. split; [reflexivity |]. intros fuel.
  assert (Hinner : getUniqueNumbersFromRange HMAC.hmac_sha256 true fuel 1 0
                                             4294967295 "abc" 1 "x"
                   = OutOfFuel).
  { apply (getUniqueNumbersFromRange_wide HMAC.hmac_sha256 true
             hmac_sha256_length); [reflexivity | lia]. }
  split; [exact Hinner |].
  unfold getNumberFromRange. rewrite Hinner. reflexivity.
Qed.

(** *** C3 *)

Lemma hmac_stream_discipline_witness :
  (forall key data, List.length (HMAC.hmac_sha256 key data) = 32%nat)
  /\ hmacCalls (stateAfter HMAC.hmac_sha256 true "abc" "x" 1 25 (sampleLimit 25) 1 9)
     = [("abc", "x:1"); ("abc", "x:1:1")]%string.
Proof.
  split; [exact hmac_sha256_length |].
  destruct (hmac_stream_discipline HMAC.hmac_sha256 true hmac_sha256_length
              "abc" "x" 1) as (_ & _ & _ & H).
  destruct (H 25 (sampleLimit 25) 1 9%nat) as (Hcalls & _ & _ & Hindex & _).
  rewrite Hcalls, Hindex. reflexivity.
Defined.

(** *** The seed commitment on HMAC-SHA256 *)

Lemma getHashBySeed_commitment_witness :
  hasLineTerminator "ab12c" = false
  /\ reversedChunks "ab12c" = "c12ab"%string
  /\ getHashBySeed HMAC.hmac_sha256 false false "ab12c"
     = hexString (HMAC.hmac_sha256 (JS.TextEncoder_encode "ab12cc12ab") []).
Proof.
  split; [reflexivity |]. split; [reflexivity |].
  exact (proj1 (getHashBySeed_commitment HMAC.hmac_sha256 false false "ab12c"
                  eq_refl)).
Defined.

(** C4 at the seed ["a\n"].  The chunks of two characters of this seed are
    the seed itself, so that the key of the commitment should be the seed
    written twice; the regular expression of the code passes over the line
    feed, the salt is ["a"], and the hash returned is another one. *)
Theorem getHashBySeed_line_feed_dropped :
  reversedChunks seedWithLineFeed = seedWithLineFeed
  /\ saltOf seedWithLineFeed = "a"%string
  /\ forall subtleAvailable cryptoJSDefined,
      getHashBySeed HMAC.hmac_sha256 subtleAvailable cryptoJSDefined seedWithLineFeed
      = "96b5d9653354908821dedaaaf43441b7c6b60f36a8cb1b936e312a1ddffba21b"%string
      /\ hexString (HMAC.hmac_sha256
                      (JS.TextEncoder_encode
                         (seedWithLineFeed ++ reversedChunks seedWithLineFeed)) [])
         = "9847603ab15ad4b48e113de9bd96a5ca7e63a0c591bd4437e4445b2dbf1e2a5f"%string
      /\ getHashBySeed HMAC.hmac_sha256 subtleAvailable cryptoJSDefined
                        seedWithLineFeed
         <> hexString (HMAC.hmac_sha256
                         (JS.TextEncoder_encode
                            (seedWithLineFeed ++ reversedChunks seedWithLineFeed))
                         []).
Proof.
  split; [reflexivity |]. split; [reflexivity |].
  intros subtleAvailable cryptoJSDefined.
  rewrite (proj1 (getHashBySeed_eq HMAC.hmac_sha256 subtleAvailable
                    cryptoJSDefined seedWithLineFeed)).
  split; [vm_compute; reflexivity |].
  split; [vm_compute; reflexivity |].
  vm_compute. discriminate.
Qed.

(** C5. The variant of [src/provably-fair.js] keys the hash on
    [seed + salt] and hashes the empty message; the variant embedded in
    [src/app.js] keys it on [seed] and hashes [seed + salt].  On
    HMAC-SHA256 the two differ at the seed ["ab12"], whichever library
    serves either of them. *)
Theorem commitment_variants_differ :
  (forall hmacSha256 subtleAvailable cryptoJSDefined seed,
      getHashBySeed hmacSha256 subtleAvailable cryptoJSDefined seed
      = hexString (hmacSha256 (JS.TextEncoder_encode (seed ++ saltOf seed))
                              (JS.TextEncoder_encode ""))
      /\ getHashBySeed_embedded hmacSha256 subtleAvailable cryptoJSDefined seed
         = hexString (hmacSha256 (JS.TextEncoder_encode seed)
                                 (JS.TextEncoder_encode (seed ++ saltOf seed))))
  /\ (forall subtleAvailable cryptoJSDefined,
         getHashBySeed HMAC.hmac_sha256 subtleAvailable cryptoJSDefined "ab12"
         = "09b7ecc0e2433ff3b41196c656e21ff6f6aa2a38080810c4b53228af2d13c6a8"%string
         /\ getHashBySeed_embedded HMAC.hmac_sha256 subtleAvailable cryptoJSDefined
                                   "ab12"
            = "5adec9a63380928b02d61dd865b8d735e0e29b747f7400b28810cad4500cc589"%string)
  /\ exists seed,
      forall subtle1 cryptoJS1 subtle2 cryptoJS2,
        getHashBySeed HMAC.hmac_sha256 subtle1 cryptoJS1 seed
        <> getHashBySeed_embedded HMAC.hmac_sha256 subtle2 cryptoJS2 seed.
Proof.
  assert (Hvalues : forall subtleAvailable cryptoJSDefined,
             getHashBySeed HMAC.hmac_sha256 subtleAvailable cryptoJSDefined "ab12"
             = "09b7ecc0e2433ff3b41196c656e21ff6f6aa2a38080810c4b53228af2d13c6a8"%string
             /\ getHashBySeed_embedded HMAC.hmac_sha256 subtleAvailable
                                       cryptoJSDefined "ab12"
                = "5adec9a63380928b02d61dd865b8d735e0e29b747f7400b28810cad4500cc589"%string).
  { intros subtleAvailable cryptoJSDefined.
    destruct (getHashBySeed_eq HMAC.hmac_sha256 subtleAvailable cryptoJSDefined
                "ab12") as (-> & ->).
    split; vm_compute; reflexivity. }
  split; [exact getHashBySeed_eq |]. split; [exact Hvalues |].
  exists "ab12"%string. intros subtle1 cryptoJS1 subtle2 cryptoJS2.
  rewrite (proj1 (Hvalues subtle1 cryptoJS1)), (proj2 (Hvalues subtle2 cryptoJS2)).
  discriminate.
Qed.

(** ** Further properties, across runtimes and on HMAC-SHA256 *)

Lemma loopBody_library (hmacSha256 : list byte -> list byte -> list byte)
      (subtle1 subtle2 : bool) (serverSeed baseMsg : string)
      (range limit lower : Z) (st : LoopState) :
  loopBody hmacSha256 subtle1 serverSeed baseMsg range limit lower st
  = loopBody hmacSha256 subtle2 serverSeed baseMsg range limit lower st.
Proof. unfold loopBody. rewrite !createHmac_eq. reflexivity. Qed.

Lemma whileLoop_library (hmacSha256 : list byte -> list byte -> list byte)
      (subtle1 subtle2 : bool) (serverSeed baseMsg : string)
      (range limit lower targetCount : Z) (fuel : nat) :
  forall st,
    whileLoop hmacSha256 subtle1 serverSeed baseMsg range limit lower
              targetCount fuel st
    = whileLoop hmacSha256 subtle2 serverSeed baseMsg range limit lower
                targetCount fuel st.
Proof.
  induction fuel as [| fuel IH]; intros st; cbn [whileLoop]; [reflexivity |].
  rewrite (loopBody_library hmacSha256 subtle1 subtle2), IH. reflexivity.
Qed.

(** X21. The results do not depend on the library that serves the hash:
    with the Web Crypto API or with the CryptoJS fallback, which passes the
    digest through hexadecimal text, [createHmac] yields the same bytes,
    the selectors the same outcome and both commitments the same text. *)
Theorem results_independent_of_library
        (hmacSha256 : list byte -> list byte -> list byte)
        (subtle1 subtle2 cryptoJS1 cryptoJS2 : bool) :
  (forall key message,
      createHmac hmacSha256 subtle1 key message
      = createHmac hmacSha256 subtle2 key message)
  /\ (forall fuel count lower upper serverSeed nonce clientSeed,
         getUniqueNumbersFromRange hmacSha256 subtle1 fuel count lower upper
                                   serverSeed nonce clientSeed
         = getUniqueNumbersFromRange hmacSha256 subtle2 fuel count lower upper
                                     serverSeed nonce clientSeed)
  /\ (forall fuel lower upper serverSeed nonce clientSeed,
         getNumberFromRange hmacSha256 subtle1 fuel lower upper
                            serverSeed nonce clientSeed
         = getNumberFromRange hmacSha256 subtle2 fuel lower upper
                              serverSeed nonce clientSeed)
  /\ (forall seed,
         getHashBySeed hmacSha256 subtle1 cryptoJS1 seed
         = getHashBySeed hmacSha256 subtle2 cryptoJS2 seed)
  /\ (forall seed,
         getHashBySeed_embedded hmacSha256 subtle1 cryptoJS1 seed
         = getHashBySeed_embedded hmacSha256 subtle2 cryptoJS2 seed).
Proof.
  assert (Hunique : forall fuel count lower upper serverSeed nonce clientSeed,
             getUniqueNumbersFromRange hmacSha256 subtle1 fuel count lower upper
                                       serverSeed nonce clientSeed
             = getUniqueNumbersFromRange hmacSha256 subtle2 fuel count lower
                                         upper serverSeed nonce clientSeed).
  { intros. unfold getUniqueNumbersFromRange, selectorRun, initialState.
    rewrite !createHmac_eq.
    rewrite (whileLoop_library hmacSha256 subtle1 subtle2). reflexivity. }
  split; [intros; rewrite !createHmac_eq; reflexivity |].
  split; [exact Hunique |].
  split; [intros; unfold getNumberFromRange; rewrite Hunique; reflexivity |].
  split; intros seed.
  - rewrite (proj1 (getHashBySeed_eq hmacSha256 subtle1 cryptoJS1 seed)),
      (proj1 (getHashBySeed_eq hmacSha256 subtle2 cryptoJS2 seed)). reflexivity.
  - rewrite (proj2 (getHashBySeed_eq hmacSha256 subtle1 cryptoJS1 seed)),
      (proj2 (getHashBySeed_eq hmacSha256 subtle2 cryptoJS2 seed)). reflexivity.
Qed.

(** *** The further properties at concrete inputs *)

Lemma hex_encode_decode_witness :
  allLowerHex "0aff" = true /\ evenLength "0aff" = true
  /\ hexString (hexToArrayBuffer "0aff") = "0aff"%string.
Proof.
  split; [reflexivity |]. split; [reflexivity |].
  exact (proj2 hex_encode_decode "0aff"%string eq_refl eq_refl).
Defined.

Lemma readUInt32BE_unsigned_injective_witness :
  (List.length [x01; x02] <= 4)%nat /\ readUInt32BE [x01; x02] 4 = 0.
Proof.
  split; [cbn; lia |].
  apply (proj1 (proj2 readUInt32BE_unsigned_injective) [x01; x02] 4%nat).
  cbn. lia.
Defined.

Lemma accepted_draws_equidistributed_witness :
  0 < 25 < 2 ^ 32
  /\ 0 <= 3 < sampleLimit 25 / 25 /\ 0 <= 7 < 25
  /\ (3 * 25 + 7) / 25 = 3 /\ (3 * 25 + 7) mod 25 = 7.
Proof.
  assert (Hq : 0 <= 3 < sampleLimit 25 / 25) by (split; [lia | reflexivity]).
  split; [lia |]. split; [exact Hq |]. split; [lia |].
  destruct (proj2 (accepted_draws_equidistributed 25 ltac:(lia)) 3 7 Hq ltac:(lia))
    as (_ & _ & Hdiv & Hmod).
  split; [exact Hdiv | exact Hmod].
Defined.

Lemma at_least_half_accepted_witness :
  0 < 25 < 2 ^ 32 /\ 2 ^ 31 <= sampleLimit 25.
Proof.
  split; [lia |]. exact (proj1 (at_least_half_accepted 25 ltac:(lia))).
Defined.

Lemma wide_range_never_returns_witness :
  2 ^ 32 <= 4294967295 - 0 + 1 /\ 0 < 1 < 4294967295 - 0 + 1
  /\ getUniqueNumbersFromRange HMAC.hmac_sha256 true 20 1 0 4294967295
                               "abc" 1 "x" = OutOfFuel.
Proof.
  split; [lia |]. split; [lia |].
  apply (wide_range_never_returns HMAC.hmac_sha256 true hmac_sha256_length
           20 1 0 4294967295 "abc" 1 "x"); lia.
Defined.

Lemma direct_results_are_prefixes_witness :
  0 < 1 <= 3 /\ 2 * 3 <= 25 - 1 + 1
  /\ getUniqueNumbersFromRange HMAC.hmac_sha256 true 100 3 1 25 "abc" 1 "x"
     = Returned [1; 11; 2]
  /\ getUniqueNumbersFromRange HMAC.hmac_sha256 true 100 1 1 25 "abc" 1 "x"
     = Returned (firstn (Z.to_nat 1) [1; 11; 2]).
Proof.
  assert (Hrun : getUniqueNumbersFromRange HMAC.hmac_sha256 true 100 3 1 25
                                           "abc" 1 "x" = Returned [1; 11; 2])
    by (vm_compute; reflexivity).
  split; [lia |]. split; [lia |]. split; [exact Hrun |].
  exact (direct_results_are_prefixes HMAC.hmac_sha256 true hmac_sha256_length
           100 1 3 1 25 "abc" 1 "x" [1; 11; 2] ltac:(lia) ltac:(lia) Hrun).
Defined.

Lemma getNumberFromRange_errors_witness :
  1 < 5
  /\ getNumberFromRange HMAC.hmac_sha256 true 10 5 1 "abc" 1 "x"
     = Thrown UpperBelowLower.
Proof.
  split; [lia |].
  apply (getNumberFromRange_errors HMAC.hmac_sha256 true hmac_sha256_length
           10 5 1 "abc" 1 "x"). lia.
Defined.

Lemma commitment_is_64_lowercase_hex_witness :
  (forall key data, List.length (HMAC.hmac_sha256 key data) = 32%nat)
  /\ String.length (getHashBySeed HMAC.hmac_sha256 true true "abc") = 64%nat.
Proof.
  split; [exact hmac_sha256_length |].
  apply (commitment_is_64_lowercase_hex HMAC.hmac_sha256 true true
           hmac_sha256_length "abc").
Defined.

Lemma salt_passes_over_line_terminators_witness :
  (0 < matchableLength (String "a" (String "010" (String "b" EmptyString))))%nat
  /\ String.length (saltOf (String "a" (String "010" (String "b" EmptyString))))
     = 2%nat.
Proof.
  split; [cbn; lia |].
  apply (proj2 (salt_passes_over_line_terminators
                  (String "a" (String "010" (String "b" EmptyString))))).
  cbn. lia.
Defined.

Lemma stream_blocks_alias_witness :
  (1 <= 2)%nat
  /\ streamBlock HMAC.hmac_sha256 "abc" "x:1" 2 0
     = streamBlock HMAC.hmac_sha256 "abc" "x" 1 2.
Proof.
  split; [lia |].
  exact (proj1 (proj2 (stream_blocks_alias HMAC.hmac_sha256 "abc" "x" 1 2
                         ltac:(lia)))).
Defined.

Lemma wheel_result_witness :
  0 < 1
  /\ calculateWheelResult HMAC.hmac_sha256 true true 10 "s" "abc" 0
     = Thrown UpperBelowLower
  /\ calculateWheelResult HMAC.hmac_sha256 true true 10 "s" "abc" 1
     = Returned (Wheel.mk 1 (getHashBySeed HMAC.hmac_sha256 true true "abc")).
Proof.
  split; [lia |]. split.
  - apply (wheel_result HMAC.hmac_sha256 true true hmac_sha256_length
             10 "s" "abc" 0). lia.
  - apply (wheel_result HMAC.hmac_sha256 true true hmac_sha256_length
             10 "s" "abc" 1). reflexivity.
Defined.

Lemma cases_result_witness :
  -1 < 0
  /\ calculateCasesResult HMAC.hmac_sha256 true true 10 "x" "abc" 1 (Some (-1))
     = Thrown UpperBelowLower.
Proof.
  split; [lia |].
  apply (cases_result HMAC.hmac_sha256 true true hmac_sha256_length
           10 "x" "abc" 1 (Some (-1))). cbn. lia.
Defined.

Lemma embedded_dice_result_witness :
  (forall key data, List.length (HMAC.hmac_sha256 key data) = 32%nat)
  /\ forall e, calculateDiceResult_embedded HMAC.hmac_sha256 true true 10
                                            "x" "abc" 1 <> Thrown e.
Proof.
  split; [exact hmac_sha256_length |].
  apply (embedded_dice_result HMAC.hmac_sha256 true true hmac_sha256_length
           10 "x" "abc" 1).
Defined.





